(** * Location-resolution pipeline of [Task-3/script.py]

    A shallow embedding of the stage-3 core: location extraction,
    stop-list filtering and counting, the cached geocode resolver with its
    retry loop, and the heat-map aggregator.

    Modelling conventions.
    - Python [str] is [string]; [str.lower] and [str.split] are modelled on
      the ASCII range (other characters are neither cased nor whitespace).
    - Python [dict] whose iteration order is observable (the abbreviation
      table, a [Counter]) is the list of its items in insertion order; the
      geocode cache and the post records, which are only read by key, are
      [gmap]s; the Python [set] of locations is a [gset].
    - The named-entity recogniser and the geocoder are injected
      collaborators: [nlp] is a function from a text to its entities, the
      geocoder is any type with a [geocode] method (class [Geolocator]).
    - Effects ([geocode] calls, [time.sleep], [print]) are recorded as
      events in the trace of a [world]; effectful functions live in the
      state monad [M]. *)

From Stdlib Require Import Ascii String Floats.PrimFloat.
From stdpp Require Import gmap strings list fin_maps.

Local Open Scope string_scope.
Local Open Scope list_scope.
Local Open Scope stdpp_scope.

#[local] Set Warnings "-register-all".

(** ** Strings *)

Module PyStr.

(** [c.lower()] for one ASCII character. *)
Definition lower_ascii (c : ascii) : ascii :=
  let n := nat_of_ascii c in
  if (65 <=? n)%nat && (n <=? 90)%nat then ascii_of_nat (n + 32) else c.

(** [s.lower()]. *)
Fixpoint lower (s : string) : string :=
  match s with
  | EmptyString => EmptyString
  | String c s' => String (lower_ascii c) (lower s')
  end.

(** [c.isspace()]: tab, line feed, vertical tab, form feed, carriage
    return, the four separators 0x1c-0x1f, and space. *)
Definition isspace (c : ascii) : bool :=
  let n := nat_of_ascii c in
  ((9 <=? n)%nat && (n <=? 13)%nat) || ((28 <=? n)%nat && (n <=? 32)%nat).

(** The loop of [s.split()]: [word] is the token being read. *)
Fixpoint split_from (word : string) (s : string) : list string :=
  match s with
  | EmptyString => if decide (word = "") then [] else [word]
  | String c s' =>
      if isspace c
      then (if decide (word = "") then split_from "" s'
            else word :: split_from "" s')
      else split_from (word +:+ String c "") s'
  end.

(** [s.split()]: maximal runs of non-whitespace characters. *)
Definition split (s : string) : list string := split_from "" s.

End PyStr.

Export PyStr.

(** ** Location extractor *)

(** A span of [doc.ents]: its text and its label. *)
Record entity := Entity { ent_text : string; label_ : string }.

(** The recogniser: [nlp(text).ents]. *)
Definition recogniser := string → list entity.

(** The abbreviation table of [process_posts], in insertion order. *)
Definition abbreviation_mapping : list (string * string) :=
  [ ("NYC", "New York City");
    ("LA", "Los Angeles");
    ("SF", "San Francisco");
    ("UK", "United Kingdom");
    ("USA", "United States");
    ("US", "United States");
    ("UAE", "United Arab Emirates");
    ("TX", "Texas");
    ("CA", "California");
    ("DC", "Washington, D.C.") ].

(** [{key.lower(): val for key, val in abbreviation_mapping.items()}]:
    a later item overwrites an earlier one with the same lowered key. *)
Definition lower_keys (abbreviation_mapping : list (string * string))
  : gmap string string :=
  foldl (λ m kv, <[lower kv.1 := kv.2]> m) ∅ abbreviation_mapping.

(** [{ent.text for ent in doc.ents if ent.label_ == "GPE"}]. *)
Definition gpe_texts (ents : list entity) : gset string :=
  list_to_set (ent_text <$> filter (λ ent, label_ ent = "GPE") ents).

(** One iteration of the loop over [words]. *)
Definition add_abbreviation (lower_abbreviation_mapping : gmap string string)
    (locations : gset string) (word : string) : gset string :=
  let lower_word := lower word in
  match lower_abbreviation_mapping !! lower_word with
  | Some full => locations ∪ {[full]}
  | None => locations
  end.

Definition no_location_found : string := "no location found".

Definition extract_locations (text : string) (nlp : recogniser)
    (abbreviation_mapping : list (string * string)) : list string :=
  let doc := nlp text in
  let lower_abbreviation_mapping := lower_keys abbreviation_mapping in
  let locations := gpe_texts doc in
  let words := split text in
  let locations :=
    foldl (add_abbreviation lower_abbreviation_mapping) locations words in
  if decide (locations = ∅) then [no_location_found] else elements locations.

(** The expansions contributed by the abbreviation pass alone. *)
Definition abbreviation_matches (text : string)
    (abbreviation_mapping : list (string * string)) : gset string :=
  foldl (add_abbreviation (lower_keys abbreviation_mapping)) ∅ (split text).

(** The set [locations] of [extract_locations] at its [return]. *)
Definition located (text : string) (nlp : recogniser)
    (tbl : list (string * string)) : gset string :=
  gpe_texts (nlp text) ∪ abbreviation_matches text tbl.

(** No two keys that agree up to case expand differently. *)
Definition case_insensitive (tbl : list (string * string)) : Prop :=
  ∀ key val key' val',
    (key, val) ∈ tbl → (key', val') ∈ tbl → lower key' = lower key → val' = val.

(** ** Location normaliser / filter *)

(** [collections.Counter(xs)]: items in order of first occurrence. *)
Module Counter.

Definition t := list (string * nat).

(** [c[x] += 1]. *)
Fixpoint incr (c : t) (x : string) : t :=
  match c with
  | [] => [(x, 1)]
  | (k, n) :: c' =>
      if decide (k = x) then (k, S n) :: c' else (k, n) :: incr c' x
  end.

Definition of_list (xs : list string) : t := foldl incr [] xs.

(** [list(c)]: the keys. *)
Definition keys (c : t) : list string := c.*1.

(** [c[x]]: a missing key counts 0. *)
Fixpoint get (c : t) (x : string) : nat :=
  match c with
  | [] => 0
  | (k, n) :: c' => if decide (k = x) then n else get c' x
  end.

End Counter.

Definition unwanted_words : gset string :=
  {[ "no location found"; "meth"; "kinda"; "example"; "country";
     "place"; "world"; "earth"; "everywhere"; "phobia"; "mcas" ]}.

(** [[loc for sublist in all_locations for loc in sublist]]. *)
Definition flatten (all_locations : list (list string)) : list string :=
  concat all_locations.

Definition filter_locations (all_locations : list (list string)) : Counter.t :=
  let flat_locations := flatten all_locations in
  let filtered_locations :=
    filter (λ loc, lower loc ∉ unwanted_words) flat_locations in
  Counter.of_list filtered_locations.

(** ** Post records *)

(** A value read by [json.load]. *)
Inductive json :=
| JNull
| JBool (b : bool)
| JInt (n : Z)
| JFloat (x : float)
| JStr (s : string)
| JList (xs : list json)
| JObject (items : list (string * json)).

(** A post is a JSON object read by field name. *)
Abbreviation post := (gmap string json).

Definition json_of_locations (locations : list string) : json :=
  JList (JStr <$> locations).

(** The loop of [process_posts]. [post["content"]] raises [KeyError] on a
    post without that field and the recogniser rejects a value that is not
    a string: both end the run with an error, [None]. The posts are
    updated in place; a post listed twice would be given the same value
    twice, so the list of updated values describes the outcome. *)
Fixpoint process_posts_loop (nlp : recogniser) (posts : list post)
    (all_locations : list (list string))
  : option (list post * list (list string)) :=
  match posts with
  | [] => Some ([], all_locations)
  | post :: rest =>
      match post !! "content" with
      | Some (JStr text) =>
          let locations := extract_locations text nlp abbreviation_mapping in
          let all_locations := all_locations ++ [locations] in
          let post := <["location" := json_of_locations locations]> post in
          match process_posts_loop nlp rest all_locations with
          | Some (rest, all_locations) => Some (post :: rest, all_locations)
          | None => None
          end
      | _ => None
      end
  end.

(** [process_posts(posts)], with the loaded model [nlp] as a parameter. *)
Definition process_posts (nlp : recogniser) (posts : list post)
  : option (list post * list (list string)) :=
  process_posts_loop nlp posts [].

(** ** Geocode cache and resolver *)

Definition coords : Type := float * float.

(** What one call [geolocator.geocode(location)] does. *)
Inductive geo_outcome :=
| Located (latitude longitude : float)  (* returns a location *)
| NoResult                              (* returns [None] *)
| TimedOut                              (* raises [GeocoderTimedOut] *)
| Failed (e : string).                  (* raises another [Exception] *)

(** The geocoding collaborator: a call answers and moves the
    collaborator to its next state. *)
Class Geolocator (G : Type) := geocode : G → string → geo_outcome * G.

Inductive event :=
| Geocode (location : string)
| Sleep (seconds : nat)
| Print (msg : string).

Record world (G : Type) := World { geolocator : G; trace : list event }.
Arguments World {G} _ _.
Arguments geolocator {G} _.
Arguments trace {G} _.

(** The state monad of effectful code. *)
Definition M (G A : Type) : Type := world G → A * world G.

#[export] Instance M_ret {G} : MRet (M G) := λ A a w, (a, w).

#[export] Instance M_bind {G} : MBind (M G) :=
  λ A B k m w, let (a, w') := m w in k a w'.

Definition emit {G} (ev : event) : M G unit :=
  λ w, (tt, World (geolocator w) (trace w ++ [ev])).

Definition sleep {G} (seconds : nat) : M G unit := emit (Sleep seconds).

Definition print {G} (msg : string) : M G unit := emit (Print msg).

Definition call_geocode `{Geolocator G} (location : string) : M G geo_outcome :=
  λ w, let (r, g) := geocode (geolocator w) location in
       (r, World g (trace w ++ [Geocode location])).

(** The number of lookups recorded in a trace. *)
Fixpoint geocode_calls (tr : list event) : nat :=
  match tr with
  | [] => 0
  | Geocode _ :: tr' => S (geocode_calls tr')
  | _ :: tr' => geocode_calls tr'
  end.

(** The total time slept in a trace. *)
Fixpoint slept (tr : list event) : nat :=
  match tr with
  | [] => 0
  | Sleep n :: tr' => n + slept tr'
  | _ :: tr' => slept tr'
  end.

Section Resolver.

Context `{Geolocator G}.

(** [for _ in range(n)] of [get_coordinates]: [n] attempts remain. *)
Fixpoint attempts (n : nat) (location : string)
    (location_cache : gmap string coords)
  : M G (option coords * gmap string coords) :=
  match n with
  | 0 => mret (None, location_cache)
  | S n' =>
      geo ← call_geocode location;
      match geo with
      | Located latitude longitude =>
          let coords := (latitude, longitude) in
          mret (Some coords, <[location := coords]> location_cache)
      | NoResult => attempts n' location location_cache
      | TimedOut =>
          print ("Timeout for " +:+ location +:+ ", retrying...");;
          sleep 2;;
          attempts n' location location_cache
      | Failed e =>
          print ("Error geocoding " +:+ location +:+ ": " +:+ e);;
          mret (None, location_cache)
      end
  end.

(** [get_coordinates(geolocator, location, location_cache)]: the
    result and the cache as the call leaves it. *)
Definition get_coordinates (location : string)
    (location_cache : gmap string coords)
  : M G (option coords * gmap string coords) :=
  match location_cache !! location with
  | Some cached => mret (Some cached, location_cache)
  | None => attempts 3 location location_cache
  end.

(** ** Heat-map aggregator *)

(** The loop of [get_location_coordinates] over
    [location_counts.items()]. *)
Fixpoint aggregate_loop (items : list (string * nat))
    (location_cache : gmap string coords)
    (location_coordinates : list (float * float * nat))
  : M G (list (float * float * nat)) :=
  match items with
  | [] => mret location_coordinates
  | (location, count) :: items' =>
      '(coords, location_cache) ← get_coordinates location location_cache;
      let location_coordinates :=
        match coords with
        | Some (latitude, longitude) =>
            location_coordinates ++ [(latitude, longitude, count)]
        | None => location_coordinates
        end in
      sleep 2;;
      aggregate_loop items' location_cache location_coordinates
  end.

(** [get_location_coordinates(user_agent, location_counts)]; the
    geocoder built from [user_agent] is the one of the world. *)
Definition get_location_coordinates (location_counts : Counter.t)
  : M G (list (float * float * nat)) :=
  aggregate_loop location_counts ∅ [].

End Resolver.

(** ** Vocabulary of the statements *)

(** The collaborator state reached after a sequence of calls. *)
Definition after `{Geolocator G} (g : G) (locations : list string) : G :=
  foldl (λ g location, (geocode g location).2) g locations.

(** Every call answers [r], whatever was asked before. *)
Definition always `{Geolocator G} (r : geo_outcome) (g : G) : Prop :=
  ∀ earlier location, (geocode (after g earlier) location).1 = r.

(** What the aggregator is to produce, as a relation: from the cache and
    the world before the first pair to the points and the world after the
    last one. A resolved name gives one point, an unresolved name none;
    every name is followed by the wait of 2. *)
Inductive aggregates `{Geolocator G}
  : gmap string coords → world G → list (string * nat) →
    list (float * float * nat) → world G → Prop :=
| aggregates_done cache w :
    aggregates cache w [] [] w
| aggregates_resolved cache w location count items
      latitude longitude cache' w' points w'' :
    get_coordinates location cache w
    = (Some (latitude, longitude), cache', w') →
    aggregates cache' (World (geolocator w') (trace w' ++ [Sleep 2]))
      items points w'' →
    aggregates cache w ((location, count) :: items)
      ((latitude, longitude, count) :: points) w''
| aggregates_unresolved cache w location count items cache' w' points w'' :
    get_coordinates location cache w = (None, cache', w') →
    aggregates cache' (World (geolocator w') (trace w' ++ [Sleep 2]))
      items points w'' →
    aggregates cache w ((location, count) :: items) points w''.

(** What [process_posts] does to one post [p]: [p'] is the post afterwards
    and [locations] what is appended to [all_locations]. *)
Definition located_post (nlp : recogniser) (p p' : post)
    (locations : list string) : Prop :=
  ∃ text,
    p !! "content" = Some (JStr text) ∧
    locations = extract_locations text nlp abbreviation_mapping ∧
    p' = <["location" := json_of_locations locations]> p.

(** [xs.count(x)]. *)
Definition occurrences (x : string) (xs : list string) : nat :=
  length (filter (λ y, y = x) xs).

(** ** Collaborators and inputs of the examples *)

(** A mock whose answer depends on the place name and on the number of
    calls it has served, which it counts. *)
Record mock := Mock { answers : nat → string → geo_outcome; served : nat }.

#[export] Instance mock_geolocator : Geolocator mock :=
  λ m location, (answers m (served m) location, Mock (answers m) (S (served m))).

(** The first call here is a miss answered at the third attempt. *)
Definition flaky_texas : mock :=
  Mock (λ n location,
          if decide (n < 2) then TimedOut
          else if decide (location = "Texas") then Located 31.0 (-100.0)
          else NoResult) 0.

(** A collaborator that is always out of time. *)
Definition timing_out : mock := Mock (λ _ _, TimedOut) 0.

(** A collaborator whose first call fails and whose later calls find
    Texas. *)
Definition failing_once : mock :=
  Mock (λ n _, if decide (n = 0) then Failed "service unavailable"
               else Located 31.0 (-100.0)) 0.

(** A collaborator that never finds anything. *)
Definition finds_nothing : mock := Mock (λ _ _, NoResult) 0.

(** A collaborator that knows where Texas is and nothing else. *)
Definition knows_texas : mock :=
  Mock (λ _ location,
          if decide (location = "Texas") then Located 31.0 (-100.0)
          else NoResult) 0.

(** A recogniser that tags "Texas" as a place in every text. *)
Definition nlp_texas : recogniser :=
  λ _, [Entity "Texas" "GPE"; Entity "Bob" "PERSON"].

(** A recogniser that finds nothing. *)
Definition nlp_silent : recogniser := λ _, [].

(** A post as the classification stage writes it. *)
Definition sample_post : post :=
  {[ "post_id" := JStr "1abcde";
     "content" := JStr "moved to LA last year";
     "likes" := JInt 12;
     "sentiment" := JStr "Negative";
     "risk_level" := JStr "Moderate Concern" ]}.

(** ** Top locations *)

(** Insertion into a list of items sorted by decreasing count: the item
    goes before the first item whose count is not larger than its own. *)
Fixpoint insert_by_count (item : string * nat) (sorted : list (string * nat))
  : list (string * nat) :=
  match sorted with
  | [] => [item]
  | item' :: rest =>
      if decide (item'.2 ≤ item.2)%nat then item :: item' :: rest
      else item' :: insert_by_count item rest
  end.

(** [sorted(c.items(), key=itemgetter(1), reverse=True)]: a stable sort,
    items with equal counts keep the order of the counter. *)
Definition sorted_by_count (c : Counter.t) : list (string * nat) :=
  foldr insert_by_count [] c.

(** [c.most_common(n)]: the first [n] items of the sorted list. *)
Definition most_common (n : nat) (c : Counter.t) : list (string * nat) :=
  take n (sorted_by_count c).

(** [save_top_locations(location_counts, file_path)]: the value returned
    stands for the rows [top_5_locations] handed to the data frame that is
    written to [file_path]. *)
Definition save_top_locations {G} (location_counts : Counter.t)
    (file_path : string) : M G (list (string * nat)) :=
  let top_5_locations := most_common 5 location_counts in
  print ("Top 5 Locations saved to " +:+ file_path);;
  mret top_5_locations.

(** ** Further vocabulary *)

(** The counts never increase along the rows. *)
Fixpoint descending (rows : list (string * nat)) : Prop :=
  match rows with
  | [] => True
  | row :: rest => Forall (λ later, (later.2 ≤ row.2)%nat) rest ∧ descending rest
  end.

(** [sum(c.values())]: the number of counted occurrences. *)
Definition total (c : Counter.t) : nat := sum_list c.*2.

(** The answer of the collaborator to the [k+1]-th of successive lookups
    of one place name. *)
Definition answer `{Geolocator G} (g : G) (location : string) (k : nat)
  : geo_outcome :=
  (geocode (after g (replicate k location)) location).1.

(** Answers that make the loop go round again. *)
Definition retried (a : geo_outcome) : Prop := a = TimedOut ∨ a = NoResult.

(** The answers of the collaborator depend on the place name only. *)
Definition answers_by `{Geolocator G} (f : string → geo_outcome) (g : G)
  : Prop :=
  ∀ earlier location, (geocode (after g earlier) location).1 = f location.

(** The point a pair of the frequency mapping gives when the place name
    is answered by [f]. *)
Definition point_of (f : string → geo_outcome) (item : string * nat)
  : option (float * float * nat) :=
  match f item.1 with
  | Located latitude longitude => Some (latitude, longitude, item.2)
  | _ => None
  end.

(** Answers that depend on the place name only: two places are known. *)
Definition atlas (location : string) : geo_outcome :=
  if decide (location = "Texas") then Located 31.0 (-100.0)
  else if decide (location = "California") then Located 36.5 (-119.5)
  else NoResult.

(** A collaborator that times out once and then fails. *)
Definition timeout_then_error : mock :=
  Mock (λ n _, if decide (n = 0) then TimedOut else Failed "quota exceeded") 0.

(** The coordinates [get_coordinates] returns for a name that is not in
    the cache when the name is answered by [f]. *)
Definition resolved_by (f : string → geo_outcome) (location : string)
  : option coords :=
  match f location with
  | Located latitude longitude => Some (latitude, longitude)
  | _ => None
  end.

(** Every cached entry is the answer [f] gives for its name. *)
Definition cache_of (f : string → geo_outcome) (cache : gmap string coords)
  : Prop :=
  ∀ location found,
    cache !! location = Some found → f location = Located found.1 found.2.

(** A collaborator that answers by [atlas]. *)
Definition atlas_service : mock := Mock (λ _ location, atlas location) 0.



(** * Properties *)

(** Unfolds one layer of the state monad. *)
Ltac run :=
  unfold mbind, mret, M_bind, M_ret, call_geocode, print, sleep, emit; simpl.

(** ** The abbreviation table *)

Section LowerKeys.

Implicit Types (tbl : list (string * string)) (k key val : string).

Lemma lower_keys_snoc tbl key val :
  lower_keys (tbl ++ [(key, val)]) = <[lower key := val]> (lower_keys tbl).
Proof. unfold lower_keys. by rewrite foldl_app. Qed.

Lemma lower_keys_None tbl k :
  lower_keys tbl !! k = None ↔ ∀ key val, (key, val) ∈ tbl → lower key ≠ k.
Proof.
  induction tbl as [|[key0 val0] tbl IH] using rev_ind.
  - split; [intros _ ?? Hin; inversion Hin | done].
  - rewrite lower_keys_snoc, lookup_insert_None, IH. split.
    + intros [Hold Hne] key val [Hin|Hin%list_elem_of_singleton]%elem_of_app.
      * by apply (Hold _ val).
      * by simplify_eq.
    + intros Hall. split.
      * intros key val Hin. apply (Hall key val), elem_of_app. by left.
      * apply (Hall key0 val0), elem_of_app. right. by apply list_elem_of_singleton.
Qed.

Lemma lower_keys_Some tbl k val :
  lower_keys tbl !! k = Some val → ∃ key, (key, val) ∈ tbl ∧ lower key = k.
Proof.
  induction tbl as [|[key0 val0] tbl IH] using rev_ind; [done|].
  rewrite lower_keys_snoc, lookup_insert_Some.
  intros [[<- <-]|[_ Hold]].
  - exists key0. split; [|done]. apply elem_of_app. right.
    by apply list_elem_of_singleton.
  - destruct (IH Hold) as (key & Hin & Hk). exists key. split; [|done].
    apply elem_of_app. by left.
Qed.

Lemma lower_keys_lookup tbl key val :
  case_insensitive tbl → (key, val) ∈ tbl →
  lower_keys tbl !! lower key = Some val.
Proof.
  intros Hci Hin. destruct (lower_keys tbl !! lower key) as [v|] eqn:Hl.
  - apply lower_keys_Some in Hl as (key' & Hin' & Hk).
    f_equal. by apply (Hci key val key' v).
  - by destruct (proj1 (lower_keys_None _ _) Hl key val Hin).
Qed.

End LowerKeys.

Lemma abbreviation_mapping_case_insensitive :
  case_insensitive abbreviation_mapping.
Proof.
  intros key val key' val' Hin Hin'. unfold abbreviation_mapping in *.
  repeat (apply elem_of_cons in Hin as [Hin|Hin]; [simplify_eq|]);
    try (by inversion Hin);
    repeat (apply elem_of_cons in Hin' as [Hin'|Hin']; [simplify_eq|]);
    try (by inversion Hin'); by vm_compute.
Qed.

(** ** The extractor *)

Section Extractor.

Implicit Types (lam : gmap string string) (locations : gset string).

Lemma elem_of_foldl_add_abbreviation lam locations words x :
  x ∈ foldl (add_abbreviation lam) locations words ↔
  x ∈ locations ∨ ∃ word, word ∈ words ∧ lam !! lower word = Some x.
Proof.
  revert locations. induction words as [|w words IH]; intros locations; simpl.
  - split; [by left|]. intros [?|(? & Hin & _)]; [done|inversion Hin].
  - rewrite IH. unfold add_abbreviation.
    destruct (lam !! lower w) as [full|] eqn:Hw.
    + rewrite elem_of_union, elem_of_singleton. split.
      * intros [[?| ->]|(word & ? & ?)]; [by left| |].
        -- right. exists w. split; [left|done].
        -- right. exists word. split; [by right|done].
      * intros [?|(word & [->|?]%elem_of_cons & Hl)]; [by left;left| |].
        -- left. right. congruence.
        -- right. by exists word.
    + split.
      * intros [?|(word & ? & ?)]; [by left|].
        right. exists word. split; [by right|done].
      * intros [?|(word & [->|?]%elem_of_cons & Hl)]; [by left|congruence|].
        right. by exists word.
Qed.

Lemma elem_of_gpe_texts ents x :
  x ∈ gpe_texts ents ↔ ∃ ent, ent ∈ ents ∧ label_ ent = "GPE" ∧ ent_text ent = x.
Proof.
  unfold gpe_texts. rewrite elem_of_list_to_set, list_elem_of_fmap. split.
  - intros (ent & -> & [? ?]%list_elem_of_filter). by exists ent.
  - intros (ent & ? & ? & <-). exists ent. split; [done|].
    by apply list_elem_of_filter.
Qed.

Lemma elem_of_abbreviation_matches text tbl x :
  x ∈ abbreviation_matches text tbl ↔
  ∃ word, word ∈ split text ∧ lower_keys tbl !! lower word = Some x.
Proof.
  unfold abbreviation_matches. rewrite elem_of_foldl_add_abbreviation.
  split; [intros [Hin|?]; [set_solver|done] | by right].
Qed.

Lemma extract_locations_located text nlp tbl :
  extract_locations text nlp tbl =
  if decide (located text nlp tbl = ∅) then [no_location_found]
  else elements (located text nlp tbl).
Proof.
  unfold extract_locations, located.
  replace (foldl (add_abbreviation (lower_keys tbl)) (gpe_texts (nlp text))
             (split text))
    with (gpe_texts (nlp text) ∪ abbreviation_matches text tbl); [done|].
  apply set_eq. intros x.
  rewrite elem_of_union, elem_of_abbreviation_matches.
  by rewrite elem_of_foldl_add_abbreviation.
Qed.

Lemma elem_of_extract_locations text nlp tbl x :
  x ∈ located text nlp tbl → x ∈ extract_locations text nlp tbl.
Proof.
  intros Hx. rewrite extract_locations_located.
  case_decide as He; [|by apply elem_of_elements].
  rewrite He in Hx. by apply not_elem_of_empty in Hx.
Qed.

Lemma NoDup_extract_locations text nlp tbl :
  NoDup (extract_locations text nlp tbl).
Proof.
  rewrite extract_locations_located. case_decide.
  - apply NoDup_singleton.
  - apply NoDup_elements.
Qed.

Lemma extract_locations_nonempty text nlp tbl :
  extract_locations text nlp tbl ≠ [].
Proof.
  rewrite extract_locations_located. case_decide as He; [done|].
  intros Hnil. by apply elements_empty_inv, leibniz_equiv in Hnil.
Qed.

(** The expansion of a matching key is extracted, for every table whose
    keys, compared up to case, each have one expansion. *)
Lemma extract_locations_expands text nlp tbl word key val :
  case_insensitive tbl →
  word ∈ split text → (key, val) ∈ tbl → lower word = lower key →
  val ∈ extract_locations text nlp tbl.
Proof.
  intros Hci Hw Hk Heq. apply elem_of_extract_locations, elem_of_union. right.
  apply elem_of_abbreviation_matches. exists word. split; [done|].
  rewrite Heq. by apply lower_keys_lookup.
Qed.

End Extractor.

(** In a table with two keys equal up to case, the later key decides. *)
Example lower_keys_later_key_wins :
  extract_locations "US" nlp_silent [("US", "United States"); ("us", "ourselves")]
  = ["ourselves"].
Proof. by vm_compute. Qed.

(** C5: when the recogniser tags no entity of the text as a
    geo-political entity and no whitespace-separated word of the text
    equals, up to case, a key of the abbreviation table,
    [extract_locations] returns exactly the one-element list
    ["no location found"]. *)
Theorem extract_locations_sentinel
    (text : string) (nlp : recogniser) (tbl : list (string * string)) :
  (∀ ent, ent ∈ nlp text → label_ ent ≠ "GPE") →
  (∀ word key val, word ∈ split text → (key, val) ∈ tbl →
     lower word ≠ lower key) →
  extract_locations text nlp tbl = ["no location found"].
Proof.
  intros Hner Habbr. rewrite extract_locations_located.
  rewrite decide_True; [done|].
  apply set_eq. intros x. split; [|set_solver].
  unfold located.
  intros [(ent & Hin & Hl & _)%elem_of_gpe_texts
         |(word & Hin & Hl)%elem_of_abbreviation_matches]%elem_of_union.
  - by destruct (Hner ent Hin).
  - apply lower_keys_Some in Hl as (key & Hk & Heq).
    by destruct (Habbr word key x Hin Hk).
Qed.

Lemma extract_locations_sentinel_witness :
  extract_locations "nothing to see here" nlp_silent abbreviation_mapping
  = ["no location found"].
Proof.
  apply extract_locations_sentinel.
  - intros ent Hin. inversion Hin.
  - intros word key val Hw Hk. vm_compute in Hw. unfold abbreviation_mapping in Hk.
    repeat (apply elem_of_cons in Hw as [->|Hw]); [..|inversion Hw];
      repeat (apply elem_of_cons in Hk as [Hk|Hk]; [simplify_eq; by vm_compute|]);
      inversion Hk.
Defined.

(** C6: for every text with a whitespace-separated word that equals, up
    to case, a key of the abbreviation table of [process_posts], the
    result of [extract_locations] contains the expansion of that key. *)
Theorem extract_locations_expands_abbreviation
    (text : string) (nlp : recogniser) (word key val : string) :
  word ∈ split text →
  (key, val) ∈ abbreviation_mapping →
  lower word = lower key →
  val ∈ extract_locations text nlp abbreviation_mapping.
Proof.
  intros Hw Hk Heq.
  by apply (extract_locations_expands _ _ _ word key);
    [apply abbreviation_mapping_case_insensitive|..].
Qed.

Lemma extract_locations_expands_abbreviation_witness :
  "New York City"
  ∈ extract_locations "moved to Nyc last year" nlp_silent abbreviation_mapping.
Proof.
  apply (extract_locations_expands_abbreviation _ _ "Nyc" "NYC").
  - vm_compute. do 2 right. left.
  - left.
  - reflexivity.
Defined.

(** ** Counting *)

Section Counting.

Implicit Types (c : Counter.t) (x y : string) (xs : list string).

Lemma occurrences_nil x : occurrences x [] = 0.
Proof. done. Qed.

Lemma occurrences_cons x y xs :
  occurrences x (y :: xs)
  = (if decide (y = x) then 1 else 0) + occurrences x xs.
Proof.
  unfold occurrences. rewrite filter_cons. by case_decide.
Qed.

Lemma occurrences_app x xs ys :
  occurrences x (xs ++ ys) = occurrences x xs + occurrences x ys.
Proof. unfold occurrences. by rewrite filter_app, length_app. Qed.

Lemma occurrences_not_elem x xs : x ∉ xs → occurrences x xs = 0.
Proof.
  induction xs as [|y xs IH]; [done|].
  rewrite not_elem_of_cons, occurrences_cons. intros [Hne Hnin].
  rewrite decide_False by done. by rewrite IH.
Qed.

Lemma occurrences_NoDup x xs : NoDup xs → x ∈ xs → occurrences x xs = 1.
Proof.
  induction 1 as [|y xs Hnin Hnd IH]; [by inversion 1|].
  rewrite occurrences_cons. intros [->|Hin]%elem_of_cons.
  - rewrite decide_True by done. by rewrite occurrences_not_elem.
  - rewrite decide_False by (intros ->; done). by rewrite IH.
Qed.

Lemma occurrences_pos x xs : x ∈ xs ↔ 0 < occurrences x xs.
Proof.
  induction xs as [|y xs IH].
  - split; [by inversion 1 | rewrite occurrences_nil; lia].
  - rewrite elem_of_cons, occurrences_cons, IH.
    case_decide as Hyx.
    + split; [lia | by left].
    + split; [intros [->|?]; [done|lia] | right; lia].
Qed.

Lemma occurrences_filter (P : string → Prop) `{!∀ y, Decision (P y)} x xs :
  occurrences x (filter P xs) = if decide (P x) then occurrences x xs else 0.
Proof.
  induction xs as [|y xs IH].
  - by case_decide.
  - rewrite filter_cons. destruct (decide (P y)) as [Hy|Hy].
    + rewrite !occurrences_cons, IH. repeat case_decide; simplify_eq; done.
    + rewrite IH, occurrences_cons. repeat case_decide; simplify_eq; done.
Qed.

Lemma counter_get_incr c x y :
  Counter.get (Counter.incr c x) y
  = (if decide (x = y) then 1 else 0) + Counter.get c y.
Proof.
  induction c as [|[k n] c IH]; simpl.
  - by case_decide.
  - destruct (decide (k = x)) as [->|Hkx]; simpl.
    + by repeat case_decide.
    + rewrite IH. repeat case_decide; by simplify_eq.
Qed.

Lemma counter_get_foldl c xs y :
  Counter.get (foldl Counter.incr c xs) y = Counter.get c y + occurrences y xs.
Proof.
  revert c. induction xs as [|x xs IH]; intros c; simpl.
  - rewrite occurrences_nil. lia.
  - rewrite IH, counter_get_incr, occurrences_cons. lia.
Qed.

(** [Counter(xs)[y] == xs.count(y)]. *)
Lemma counter_get_of_list xs y :
  Counter.get (Counter.of_list xs) y = occurrences y xs.
Proof. unfold Counter.of_list. by rewrite counter_get_foldl. Qed.

Lemma counter_keys_incr c x y :
  y ∈ Counter.keys (Counter.incr c x) ↔ y = x ∨ y ∈ Counter.keys c.
Proof.
  unfold Counter.keys. induction c as [|[k n] c IH]; simpl.
  - rewrite list_elem_of_singleton. split; [by left|].
    intros [?|Hin]; [done|inversion Hin].
  - destruct (decide (k = x)) as [->|Hkx]; simpl.
    + rewrite !elem_of_cons. tauto.
    + rewrite !elem_of_cons, IH. tauto.
Qed.

Lemma counter_keys_foldl c xs y :
  y ∈ Counter.keys (foldl Counter.incr c xs) ↔ y ∈ Counter.keys c ∨ y ∈ xs.
Proof.
  revert c. induction xs as [|x xs IH]; intros c; simpl.
  - split; [by left|]. intros [?|Hin]; [done|inversion Hin].
  - rewrite IH, counter_keys_incr, elem_of_cons. tauto.
Qed.

(** The keys of [Counter(xs)] are the elements of [xs]. *)
Lemma counter_keys_of_list xs y :
  y ∈ Counter.keys (Counter.of_list xs) ↔ y ∈ xs.
Proof.
  unfold Counter.of_list. rewrite counter_keys_foldl. split; [|by right].
  intros [Hin|?]; [inversion Hin|done].
Qed.

Lemma counter_keys_incr_NoDup c x :
  NoDup (Counter.keys c) → NoDup (Counter.keys (Counter.incr c x)).
Proof.
  unfold Counter.keys. induction c as [|[k n] c IH]; simpl.
  - intros _. apply NoDup_singleton.
  - rewrite NoDup_cons. intros [Hk Hnd].
    destruct (decide (k = x)) as [->|Hkx]; simpl; rewrite NoDup_cons.
    + done.
    + split; [|by apply IH]. intros [?|?]%counter_keys_incr; by simplify_eq.
Qed.

(** A [Counter] is a dictionary: no key occurs twice. *)
Lemma counter_keys_NoDup xs : NoDup (Counter.keys (Counter.of_list xs)).
Proof.
  unfold Counter.of_list.
  assert (∀ c, NoDup (Counter.keys c) →
               NoDup (Counter.keys (foldl Counter.incr c xs))) as Hgen.
  { induction xs as [|x xs IH]; intros c Hc; simpl; [done|].
    by apply IH, counter_keys_incr_NoDup. }
  apply Hgen, NoDup_nil_2.
Qed.

End Counting.

(** ** The filter *)

Lemma filter_locations_get (all_locations : list (list string)) (loc : string) :
  Counter.get (filter_locations all_locations) loc
  = if decide (lower loc ∉ unwanted_words)
    then occurrences loc (flatten all_locations) else 0.
Proof.
  unfold filter_locations. rewrite counter_get_of_list.
  rewrite occurrences_filter. by repeat case_decide.
Qed.

Lemma filter_locations_keys (all_locations : list (list string)) (loc : string) :
  loc ∈ Counter.keys (filter_locations all_locations) ↔
  loc ∈ flatten all_locations ∧ lower loc ∉ unwanted_words.
Proof.
  unfold filter_locations. rewrite counter_keys_of_list, list_elem_of_filter.
  tauto.
Qed.

(** C7: for every list of per-post location lists, no key of the
    frequency mapping has its lowercase form in the stop-list, the
    sentinel "no location found" is never a key, and the filter is an
    exact match on the lowercased string: every flattened location whose
    lowercase form is not itself a stop-list entry is a key, counted with
    all its occurrences. *)
Theorem filter_locations_stop_list (all_locations : list (list string)) :
  (∀ loc, loc ∈ Counter.keys (filter_locations all_locations) →
          lower loc ∉ unwanted_words) ∧
  ("no location found" ∉ Counter.keys (filter_locations all_locations)) ∧
  (∀ loc, loc ∈ flatten all_locations → lower loc ∉ unwanted_words →
          loc ∈ Counter.keys (filter_locations all_locations) ∧
          Counter.get (filter_locations all_locations) loc
          = occurrences loc (flatten all_locations)).
Proof.
  split; [|split].
  - by intros loc [_ ?]%filter_locations_keys.
  - intros [_ Hstop]%filter_locations_keys. apply Hstop. by vm_compute.
  - intros loc Hin Hstop. split; [by apply filter_locations_keys|].
    rewrite filter_locations_get. by rewrite decide_True.
Qed.

Lemma filter_locations_stop_list_witness :
  (lower "Methuen" ∉ unwanted_words) ∧
  ("Methuen" ∈ Counter.keys
    (filter_locations [["Methuen"; "METH"]; ["No Location Found"; "Methuen"]])) ∧
  ("METH" ∉ Counter.keys
    (filter_locations [["Methuen"; "METH"]; ["No Location Found"; "Methuen"]])).
Proof.
  pose proof (filter_locations_stop_list
    [["Methuen"; "METH"]; ["No Location Found"; "Methuen"]]) as (Hkeys & _ & Hkept).
  assert (lower "Methuen" ∉ unwanted_words) as Hm by (by vm_compute).
  split; [done|]. split.
  - apply Hkept; [|done]. vm_compute. left.
  - intros Hin. apply Hkeys in Hin. apply Hin. by vm_compute.
Defined.

(** The filter at work: case variants of stop words go, words that only
    contain a stop word stay. *)
Example filter_locations_exact_match :
  filter_locations [["Methuen"; "METH"]; ["No Location Found"; "Methuen"];
                    ["world cup"; "World"]]
  = [("Methuen", 2); ("world cup", 1)].
Proof. by vm_compute. Qed.

(** ** Occurrences of one post *)

(** C4, as stated, fails: in the text "Texas TX" the recogniser tags
    "Texas" and the word "TX" expands to "Texas", yet the post carries
    "Texas" once, the flattened sequence has it once and its count is 1,
    not 2. *)
Lemma same_post_counted_twice_counterexample :
  let text := "Texas TX" in
  let locations := extract_locations text nlp_texas abbreviation_mapping in
  "Texas" ∈ gpe_texts (nlp_texas text) ∧
  "Texas" ∈ abbreviation_matches text abbreviation_mapping ∧
  locations = ["Texas"] ∧
  occurrences "Texas" (flatten [locations]) = 1 ∧
  Counter.get (filter_locations [locations]) "Texas" = 1 ∧
  ¬ (occurrences "Texas" (flatten [locations]) = 2) ∧
  ¬ (Counter.get (filter_locations [locations]) "Texas" = 2).
Proof. by vm_compute. Qed.

(** C4, amended: a place name that a post's text yields both from the
    recogniser and from an abbreviation match occurs exactly once in that
    post's location list; among the lists of the other posts it adds one
    occurrence to the flattened sequence and, unless its lowercase form is
    in the stop-list, one to its count. *)
Theorem same_post_counted_once
    (text : string) (nlp : recogniser) (tbl : list (string * string))
    (name : string) (before after_ : list (list string)) :
  name ∈ gpe_texts (nlp text) →
  name ∈ abbreviation_matches text tbl →
  let locations := extract_locations text nlp tbl in
  let all_locations := before ++ [locations] ++ after_ in
  occurrences name locations = 1 ∧
  occurrences name (flatten all_locations)
  = occurrences name (flatten before) + 1 + occurrences name (flatten after_) ∧
  (lower name ∉ unwanted_words →
   Counter.get (filter_locations all_locations) name
   = occurrences name (flatten before) + 1 + occurrences name (flatten after_)).
Proof.
  intros Hner Habbr locations all_locations.
  assert (occurrences name locations = 1) as Hone.
  { apply occurrences_NoDup; [apply NoDup_extract_locations|].
    apply elem_of_extract_locations, elem_of_union. by left. }
  assert (occurrences name (flatten all_locations)
          = occurrences name (flatten before) + 1
            + occurrences name (flatten after_)) as Hflat.
  { unfold all_locations, flatten. rewrite !concat_app, !occurrences_app.
    simpl. rewrite app_nil_r, Hone. lia. }
  split; [done|]. split; [done|].
  intros Hstop. rewrite filter_locations_get. by rewrite decide_True.
Qed.

Lemma same_post_counted_once_witness :
  let locations := extract_locations "Texas TX" nlp_texas abbreviation_mapping in
  occurrences "Texas" locations = 1 ∧
  occurrences "Texas" (flatten ([["Texas"]] ++ [locations] ++ []))
  = occurrences "Texas" (flatten [["Texas"]]) + 1 + occurrences "Texas" (flatten []) ∧
  (lower "Texas" ∉ unwanted_words →
   Counter.get (filter_locations ([["Texas"]] ++ [locations] ++ [])) "Texas"
   = occurrences "Texas" (flatten [["Texas"]]) + 1 + occurrences "Texas" (flatten [])).
Proof.
  apply (same_post_counted_once "Texas TX" nlp_texas abbreviation_mapping
           "Texas" [["Texas"]] []).
  - by vm_compute.
  - by vm_compute.
Defined.

(** ** The resolver *)

Section ResolverFacts.

Context `{Geolocator G}.

Implicit Types (location : string) (cache : gmap string coords)
  (w : world G) (r : option coords).

Lemma get_coordinates_hit location cache w cached :
  cache !! location = Some cached →
  get_coordinates location cache w = (Some cached, cache, w).
Proof. intros Hc. unfold get_coordinates. by rewrite Hc. Qed.

Lemma get_coordinates_miss location cache w :
  cache !! location = None →
  get_coordinates location cache w = attempts 3 location cache w.
Proof. intros Hc. unfold get_coordinates. by rewrite Hc. Qed.

(** One attempt, by the answer of the collaborator. *)
Lemma attempts_located n location cache w latitude longitude :
  (geocode (geolocator w) location).1 = Located latitude longitude →
  attempts (S n) location cache w
  = (Some (latitude, longitude), <[location := (latitude, longitude)]> cache,
     World (geocode (geolocator w) location).2 (trace w ++ [Geocode location])).
Proof.
  intros Hgeo. simpl. run.
  destruct (geocode (geolocator w) location) as [geo g]. simpl in Hgeo.
  by subst geo.
Qed.

Lemma attempts_no_result n location cache w :
  (geocode (geolocator w) location).1 = NoResult →
  attempts (S n) location cache w
  = attempts n location cache
      (World (geocode (geolocator w) location).2 (trace w ++ [Geocode location])).
Proof.
  intros Hgeo. simpl. run.
  destruct (geocode (geolocator w) location) as [geo g]. simpl in Hgeo.
  by subst geo.
Qed.

Lemma attempts_timed_out n location cache w :
  (geocode (geolocator w) location).1 = TimedOut →
  attempts (S n) location cache w
  = attempts n location cache
      (World (geocode (geolocator w) location).2
         (trace w ++ [Geocode location;
                      Print ("Timeout for " +:+ location +:+ ", retrying...");
                      Sleep 2])).
Proof.
  intros Hgeo. simpl. run.
  destruct (geocode (geolocator w) location) as [geo g]. simpl in Hgeo.
  subst geo. cbn. by rewrite <-!app_assoc.
Qed.

Lemma attempts_failed n location cache w e :
  (geocode (geolocator w) location).1 = Failed e →
  attempts (S n) location cache w
  = (None, cache,
     World (geocode (geolocator w) location).2
       (trace w ++ [Geocode location;
                    Print ("Error geocoding " +:+ location +:+ ": " +:+ e)])).
Proof.
  intros Hgeo. simpl. run.
  destruct (geocode (geolocator w) location) as [geo g]. simpl in Hgeo.
  subst geo. cbn. by rewrite <-!app_assoc.
Qed.

(** The loop either fails and leaves the cache alone, or succeeds and
    stores what it returns. *)
Lemma attempts_cache n location cache w r cache' w' :
  attempts n location cache w = (r, cache', w') →
  (r = None ∧ cache' = cache) ∨
  (∃ found, r = Some found ∧ cache' = <[location := found]> cache).
Proof.
  revert w. induction n as [|n IH]; intros w; simpl.
  - intros [= <- <- <-]. by left.
  - run. destruct (geocode (geolocator w) location) as [[lat lon| | |e] g].
    + intros [= <- <- <-]. right. by eexists.
    + apply IH.
    + apply IH.
    + intros [= <- <- <-]. by left.
Qed.

(** A call only ever extends the trace. *)
Lemma attempts_trace n location cache w :
  ∃ rest, trace (attempts n location cache w).2 = trace w ++ rest.
Proof.
  revert w. induction n as [|n IH]; intros w; simpl.
  - exists []. by rewrite app_nil_r.
  - run. destruct (geocode (geolocator w) location) as [[lat lon| | |e] g].
    + by eexists.
    + edestruct IH as [rest ->]. cbn. rewrite <-?app_assoc. by eexists.
    + edestruct IH as [rest ->]. cbn. rewrite <-?app_assoc. by eexists.
    + cbn. rewrite <-?app_assoc. by eexists.
Qed.

(** An attempt sequence with budget left starts with a lookup. *)
Lemma attempts_starts_with_lookup n location cache w :
  ∃ rest,
    trace (attempts (S n) location cache w).2
    = trace w ++ Geocode location :: rest.
Proof.
  simpl. run. destruct (geocode (geolocator w) location) as [[lat lon| | |e] g].
  - by exists [].
  - edestruct (attempts_trace n) as [rest ->]. cbn.
    rewrite <-?app_assoc. by eexists.
  - edestruct (attempts_trace n) as [rest ->]. cbn.
    rewrite <-?app_assoc. by eexists.
  - cbn. rewrite <-?app_assoc. by eexists.
Qed.

Lemma always_now answer (g : G) location :
  always answer g → (geocode g location).1 = answer.
Proof. intros Hg. apply (Hg []). Qed.

Lemma always_next answer (g : G) location :
  always answer g → always answer (geocode g location).2.
Proof. intros Hg earlier l. apply (Hg (location :: earlier)). Qed.

Lemma geocode_calls_app tr1 tr2 :
  geocode_calls (tr1 ++ tr2) = geocode_calls tr1 + geocode_calls tr2.
Proof.
  induction tr1 as [|[l|n|msg] tr1 IH]; simpl; [done|by rewrite IH|done..].
Qed.

Lemma slept_app tr1 tr2 : slept (tr1 ++ tr2) = slept tr1 + slept tr2.
Proof.
  induction tr1 as [|[l|n|msg] tr1 IH]; simpl; [done..|lia|done].
Qed.

End ResolverFacts.

(** C1: if a call of [get_coordinates] leaves an outcome for the place
    name in the cache, a second call with the same name returns the same
    outcome, leaves the cache and the world as they are, and so performs
    no lookup (and no wait); the same holds of a later call, in any world
    and with any cache that still holds that outcome for the name. *)
Theorem get_coordinates_cache_idempotent `{Geolocator G}
    (location : string) (cache cache1 : gmap string coords)
    (w w1 : world G) (r : option coords) :
  get_coordinates location cache w = (r, cache1, w1) →
  is_Some (cache1 !! location) →
  get_coordinates location cache1 w1 = (r, cache1, w1) ∧
  r = cache1 !! location ∧
  geocode_calls (trace (get_coordinates location cache1 w1).2)
  = geocode_calls (trace w1) ∧
  (∀ cache2 w2, cache2 !! location = cache1 !! location →
     get_coordinates location cache2 w2 = (r, cache2, w2)).
Proof.
  intros Hfirst [cached Hcached].
  assert (r = Some cached) as ->.
  { unfold get_coordinates in Hfirst.
    destruct (cache !! location) as [c|] eqn:Hc.
    - injection Hfirst as <- <- <-. congruence.
    - apply attempts_cache in Hfirst as [[-> ->]|(found & -> & ->)].
      + congruence.
      + rewrite lookup_insert_eq in Hcached. congruence. }
  rewrite (get_coordinates_hit _ _ _ cached) by done. rewrite Hcached.
  repeat split; [done..|].
  intros cache2 w2 Hsame. apply get_coordinates_hit. congruence.
Qed.

Lemma get_coordinates_cache_idempotent_witness :
  let '(r, cache1, w1) := get_coordinates "Texas" ∅ (World flaky_texas []) in
  r = Some (31.0%float, (-100.0)%float) ∧
  geocode_calls (trace w1) = 3 ∧
  get_coordinates "Texas" cache1 w1 = (r, cache1, w1) ∧
  r = cache1 !! "Texas" ∧
  geocode_calls (trace (get_coordinates "Texas" cache1 w1).2)
  = geocode_calls (trace w1) ∧
  (∀ cache2 w2, cache2 !! "Texas" = cache1 !! "Texas" →
     get_coordinates "Texas" cache2 w2 = (r, cache2, w2)).
Proof.
  destruct (get_coordinates "Texas" ∅ (World flaky_texas []))
    as [[r cache1] w1] eqn:Hfirst.
  split; [by vm_compute in Hfirst; injection Hfirst as <- _ _|].
  split; [by vm_compute in Hfirst; injection Hfirst as _ _ <-|].
  apply (get_coordinates_cache_idempotent _ _ _ _ _ _ Hfirst).
  vm_compute in Hfirst. injection Hfirst as _ <- _. by eexists.
Defined.

(** C2: with a collaborator that times out on every call and a place
    name that is not in the cache, [get_coordinates] makes exactly three
    lookups, each followed by the message and a wait of 2, returns
    [None], and leaves the cache as it was. *)
Theorem get_coordinates_always_timed_out `{Geolocator G}
    (location : string) (cache : gmap string coords) (w : world G) :
  always TimedOut (geolocator w) →
  cache !! location = None →
  let retry :=
    [Geocode location;
     Print ("Timeout for " +:+ location +:+ ", retrying...");
     Sleep 2] in
  let w' :=
    World (after (geolocator w) [location; location; location])
          (trace w ++ retry ++ retry ++ retry) in
  get_coordinates location cache w = (None, cache, w') ∧
  geocode_calls (trace w') = geocode_calls (trace w) + 3 ∧
  slept (trace w') = slept (trace w) + 6.
Proof.
  intros Hg Hmiss retry w'. split.
  - rewrite get_coordinates_miss by done. subst w' retry.
    pose proof (always_next _ _ location Hg) as Hg1.
    pose proof (always_next _ _ location Hg1) as Hg2.
    rewrite attempts_timed_out by apply (always_now _ _ _ Hg).
    rewrite attempts_timed_out by apply (always_now _ _ _ Hg1).
    rewrite attempts_timed_out by apply (always_now _ _ _ Hg2).
    simpl. by rewrite <-!app_assoc.
  - subst w' retry. cbn [trace].
    rewrite !geocode_calls_app, !slept_app. simpl. lia.
Qed.

Lemma constant_mock_always (answer : geo_outcome) (n : nat) :
  always answer (Mock (λ _ _, answer) n).
Proof.
  intros earlier. revert n.
  induction earlier as [|l earlier IH]; intros n location; [done|].
  apply (IH (S n)).
Qed.

Lemma get_coordinates_always_timed_out_witness :
  get_coordinates "Texas" ∅ (World timing_out [])
  = (None, ∅,
     World (Mock (λ _ _, TimedOut) 3)
       [Geocode "Texas"; Print "Timeout for Texas, retrying..."; Sleep 2;
        Geocode "Texas"; Print "Timeout for Texas, retrying..."; Sleep 2;
        Geocode "Texas"; Print "Timeout for Texas, retrying..."; Sleep 2]).
Proof.
  destruct (get_coordinates_always_timed_out "Texas" ∅ (World timing_out []))
    as [Hcall _].
  - apply constant_mock_always.
  - reflexivity.
  - exact Hcall.
Defined.

(** C3: when the place name is not in the cache and the first lookup
    raises an error other than a timeout, [get_coordinates] returns
    [None] after that single lookup, with no wait, and leaves the cache
    unchanged; a second call with the same name therefore runs the
    attempt loop again and starts with a new lookup. *)
Theorem get_coordinates_error_not_cached `{Geolocator G}
    (location : string) (cache : gmap string coords) (w : world G)
    (e : string) :
  cache !! location = None →
  (geocode (geolocator w) location).1 = Failed e →
  let w' :=
    World (geocode (geolocator w) location).2
          (trace w ++ [Geocode location;
                       Print ("Error geocoding " +:+ location +:+ ": " +:+ e)]) in
  get_coordinates location cache w = (None, cache, w') ∧
  geocode_calls (trace w') = geocode_calls (trace w) + 1 ∧
  slept (trace w') = slept (trace w) ∧
  get_coordinates location cache w' = attempts 3 location cache w' ∧
  ∃ rest,
    trace (get_coordinates location cache w').2
    = trace w' ++ Geocode location :: rest.
Proof.
  intros Hmiss Hfail w'. split; [|split; [|split; [|split]]].
  - rewrite get_coordinates_miss by done. by rewrite (attempts_failed _ _ _ _ e).
  - subst w'. cbn [trace]. rewrite geocode_calls_app. simpl. lia.
  - subst w'. cbn [trace]. rewrite slept_app. simpl. lia.
  - by apply get_coordinates_miss.
  - rewrite get_coordinates_miss by done. apply attempts_starts_with_lookup.
Qed.

Lemma get_coordinates_error_not_cached_witness :
  let w' :=
    World (Mock (answers failing_once) 1)
          [Geocode "Texas";
           Print "Error geocoding Texas: service unavailable"] in
  get_coordinates "Texas" ∅ (World failing_once []) = (None, ∅, w') ∧
  geocode_calls (trace w') = 1 ∧
  slept (trace w') = 0 ∧
  get_coordinates "Texas" ∅ w' = attempts 3 "Texas" ∅ w' ∧
  ∃ rest,
    trace (get_coordinates "Texas" ∅ w').2 = trace w' ++ Geocode "Texas" :: rest.
Proof.
  pose proof (get_coordinates_error_not_cached "Texas" ∅
                (World failing_once []) "service unavailable") as Hthm.
  apply Hthm; reflexivity.
Defined.

(** C9: when the place name is not in the cache and a lookup returns no
    result without raising, [get_coordinates] neither returns nor waits
    nor caches: it goes on with the next attempt; when all three lookups
    return no result it returns [None] after exactly three lookups and no
    wait, the cache unchanged. *)
Theorem get_coordinates_no_result `{Geolocator G}
    (location : string) (cache : gmap string coords) (w : world G) :
  cache !! location = None →
  let g1 := (geocode (geolocator w) location).2 in
  let g2 := (geocode g1 location).2 in
  let g3 := (geocode g2 location).2 in
  ((geocode (geolocator w) location).1 = NoResult →
   get_coordinates location cache w
   = attempts 2 location cache (World g1 (trace w ++ [Geocode location]))) ∧
  ((geocode (geolocator w) location).1 = NoResult →
   (geocode g1 location).1 = NoResult →
   (geocode g2 location).1 = NoResult →
   let w' :=
     World g3 (trace w ++ [Geocode location; Geocode location; Geocode location]) in
   get_coordinates location cache w = (None, cache, w') ∧
   geocode_calls (trace w') = geocode_calls (trace w) + 3 ∧
   slept (trace w') = slept (trace w)).
Proof.
  intros Hmiss g1 g2 g3. split.
  - intros H1. rewrite get_coordinates_miss by done.
    by rewrite attempts_no_result.
  - intros H1 H2 H3 w'. split; [|split].
    + rewrite get_coordinates_miss by done. subst w' g3 g2 g1.
      rewrite !attempts_no_result by done. simpl. by rewrite <-!app_assoc.
    + subst w'. cbn [trace]. rewrite geocode_calls_app. simpl. lia.
    + subst w'. cbn [trace]. rewrite slept_app. simpl. lia.
Qed.

Lemma get_coordinates_no_result_witness :
  get_coordinates "Atlantis" ∅ (World finds_nothing [])
  = (None, ∅,
     World (Mock (λ _ _, NoResult) 3)
       [Geocode "Atlantis"; Geocode "Atlantis"; Geocode "Atlantis"]).
Proof.
  destruct (get_coordinates_no_result "Atlantis" ∅ (World finds_nothing []))
    as [_ Hthree]; [reflexivity|].
  destruct Hthree as [Hcall _]; [reflexivity..|].
  exact Hcall.
Defined.

(** ** The aggregator *)

Section AggregatorFacts.

Context `{Geolocator G}.

Lemma aggregate_loop_aggregates items cache w points w'' :
  aggregates cache w items points w'' →
  ∀ acc, aggregate_loop items cache acc w = (acc ++ points, w'').
Proof.
  induction 1 as [cache w
                 |cache w location count items lat lon cache' w' points w'' Hget _ IH
                 |cache w location count items cache' w' points w'' Hget _ IH];
    intros acc; simpl.
  - run. by rewrite app_nil_r.
  - run. rewrite Hget. cbn. rewrite IH. by rewrite <-app_assoc.
  - run. rewrite Hget. cbn. by rewrite IH.
Qed.

(** The relation is total: the aggregator always comes to an end. *)
Lemma aggregates_total items cache w :
  ∃ points w'', aggregates cache w items points w''.
Proof.
  revert cache w. induction items as [|[location count] items IH]; intros cache w.
  - exists [], w. constructor.
  - destruct (get_coordinates location cache w) as [[[[lat lon]|] cache'] w'] eqn:Hget.
    + destruct (IH cache' (World (geolocator w') (trace w' ++ [Sleep 2])))
        as (points & w'' & Hrest).
      exists ((lat, lon, count) :: points), w''.
      by eapply aggregates_resolved.
    + destruct (IH cache' (World (geolocator w') (trace w' ++ [Sleep 2])))
        as (points & w'' & Hrest).
      exists points, w''. by eapply aggregates_unresolved.
Qed.


End AggregatorFacts.

(** C8: for every frequency mapping [get_location_coordinates] returns,
    without error, the points the pairs give in order: one
    [(latitude, longitude, count)] for a name that [get_coordinates]
    resolves, none for a name it returns [None] for. In particular, with
    the frequencies [{"Texas": 5}] and a collaborator that answers
    (31.0, -100.0) for "Texas", the result is [[(31.0, -100.0, 5)]]. *)
Theorem get_location_coordinates_points `{Geolocator G}
    (location_counts : Counter.t) (w : world G) :
  aggregates ∅ w location_counts
    (get_location_coordinates location_counts w).1
    (get_location_coordinates location_counts w).2 ∧
  ((geocode (geolocator w) "Texas").1 = Located 31.0 (-100.0) →
   (get_location_coordinates [("Texas", 5)] w).1
   = [(31.0%float, (-100.0)%float, 5)]).
Proof.
  split.
  - destruct (aggregates_total location_counts ∅ w) as (points & w'' & Hagg).
    unfold get_location_coordinates.
    by rewrite (aggregate_loop_aggregates _ _ _ _ _ Hagg).
  - intros Htexas. unfold get_location_coordinates. simpl. run.
    rewrite get_coordinates_miss by done.
    by rewrite (attempts_located _ _ _ _ _ _ Htexas).
Qed.

Lemma get_location_coordinates_points_witness :
  (get_location_coordinates [("Texas", 5)] (World knows_texas [])).1
  = [(31.0%float, (-100.0)%float, 5)].
Proof.
  apply (get_location_coordinates_points [] (World knows_texas [])).
  reflexivity.
Defined.

(** The aggregator on three names: one found at the third attempt, two
    that are not found. *)
Example get_location_coordinates_run :
  let '(points, w) :=
    get_location_coordinates [("Texas", 5); ("Utopia", 2); ("Narnia", 1)]
      (World flaky_texas []) in
  points = [(31.0%float, (-100.0)%float, 5)] ∧
  geocode_calls (trace w) = 9 ∧ slept (trace w) = 10.
Proof. by vm_compute. Qed.

(** ** Post records *)

Section Posts.

Variable nlp : recogniser.

Lemma process_posts_loop_Some posts all_locations posts' all_locations' :
  process_posts_loop nlp posts all_locations = Some (posts', all_locations') →
  ∃ added,
    all_locations' = all_locations ++ added ∧
    Forall3 (located_post nlp) posts posts' added.
Proof.
  revert all_locations posts' all_locations'.
  induction posts as [|p posts IH]; intros acc posts' acc'; simpl.
  - intros [= <- <-]. exists []. split; [by rewrite app_nil_r|constructor].
  - destruct (p !! "content") as [[| | | |text| |]|] eqn:Hp; try done.
    destruct (process_posts_loop nlp posts _) as [[rest all]|] eqn:Hrest; [|done].
    intros [= <- <-]. apply IH in Hrest as (added & -> & Hall).
    exists (extract_locations text nlp abbreviation_mapping :: added).
    split; [by rewrite <-app_assoc|].
    constructor; [|done]. by exists text.
Qed.

Lemma process_posts_loop_total posts all_locations :
  (∀ p, p ∈ posts → ∃ text, p !! "content" = Some (JStr text)) →
  is_Some (process_posts_loop nlp posts all_locations).
Proof.
  revert all_locations. induction posts as [|p posts IH]; intros acc Hall; simpl.
  - by eexists.
  - destruct (Hall p) as [text ->]; [left|].
    destruct (IH (acc ++ [extract_locations text nlp abbreviation_mapping]))
      as [[rest all] ->]; [|by eexists].
    intros q Hq. apply Hall. by right.
Qed.

End Posts.

(** C10: on posts that each have a text [content], [process_posts]
    returns, and each returned post is the input post with the field
    "location" set to the list of locations extracted from its content:
    every other field is unchanged, and the fields of the result are the
    fields of the input together with "location" (one more field when the
    input has none of that name). *)
Theorem process_posts_frame (nlp : recogniser) (posts : list post) :
  (∀ p, p ∈ posts → ∃ text, p !! "content" = Some (JStr text)) →
  ∃ posts' all_locations,
    process_posts nlp posts = Some (posts', all_locations) ∧
    length posts' = length posts ∧
    length all_locations = length posts ∧
    ∀ i p, posts !! i = Some p →
      ∃ text p',
        p !! "content" = Some (JStr text) ∧
        posts' !! i = Some p' ∧
        all_locations !! i
        = Some (extract_locations text nlp abbreviation_mapping) ∧
        p' !! "location"
        = Some (json_of_locations
                  (extract_locations text nlp abbreviation_mapping)) ∧
        (∀ field, field ≠ "location" → p' !! field = p !! field) ∧
        dom p' = dom p ∪ {["location"]} ∧
        (p !! "location" = None → size p' = S (size p)).
Proof.
  intros Hcontent.
  destruct (process_posts_loop_total nlp posts [] Hcontent)
    as [[posts' all_locations] Hrun].
  exists posts', all_locations. split; [done|].
  apply process_posts_loop_Some in Hrun as (added & -> & Hall). simpl.
  split; [by rewrite (Forall3_length_lm _ _ _ _ Hall)|].
  split; [by rewrite (Forall3_length_lr _ _ _ _ Hall)|].
  intros i p Hi.
  destruct (Forall3_lookup_l _ _ _ _ _ _ Hall Hi)
    as (p' & locations & Hp' & Hlocs & text & Hc & -> & ->).
  exists text. eexists. split; [done|]. split; [done|]. split; [done|].
  split; [by rewrite lookup_insert_eq|].
  split; [by intros field Hne; rewrite lookup_insert_ne|].
  split; [by rewrite dom_insert_L, (comm_L (∪))|].
  intros Hnone. by rewrite map_size_insert_None.
Qed.

Lemma process_posts_frame_witness :
  ∃ posts' all_locations,
    process_posts nlp_silent [sample_post] = Some (posts', all_locations) ∧
    length posts' = 1 ∧
    length all_locations = 1 ∧
    ∀ i p, [sample_post] !! i = Some p →
      ∃ text p',
        p !! "content" = Some (JStr text) ∧
        posts' !! i = Some p' ∧
        all_locations !! i
        = Some (extract_locations text nlp_silent abbreviation_mapping) ∧
        p' !! "location"
        = Some (json_of_locations
                  (extract_locations text nlp_silent abbreviation_mapping)) ∧
        (∀ field, field ≠ "location" → p' !! field = p !! field) ∧
        dom p' = dom p ∪ {["location"]} ∧
        (p !! "location" = None → size p' = S (size p)).
Proof.
  apply (process_posts_frame nlp_silent [sample_post]).
  intros p Hp. apply list_elem_of_singleton in Hp as ->.
  exists "moved to LA last year". reflexivity.
Defined.

(** [process_posts] on the sample post. *)
Example process_posts_sample :
  process_posts nlp_silent [sample_post]
  = Some ([<["location" := JList [JStr "Los Angeles"]]> sample_post],
          [["Los Angeles"]]).
Proof. by vm_compute. Qed.

(** * Further properties *)

(** ** More on the extractor *)

Lemma located_empty text nlp tbl :
  (∀ ent, ent ∈ nlp text → label_ ent ≠ "GPE") →
  (∀ word key val, word ∈ split text → (key, val) ∈ tbl →
     lower word ≠ lower key) →
  located text nlp tbl = ∅.
Proof.
  intros Hner Habbr. apply set_eq. intros x. split; [|by intros ?%not_elem_of_empty].
  unfold located.
  intros [(ent & Hin & Hl & _)%elem_of_gpe_texts
         |(word & Hin & Hl)%elem_of_abbreviation_matches]%elem_of_union.
  - by destruct (Hner ent Hin).
  - apply lower_keys_Some in Hl as (key & Hk & Heq).
    by destruct (Habbr word key x Hin Hk).
Qed.

Lemma elem_of_elements_located text nlp tbl x :
  x ∈ extract_locations text nlp tbl →
  x ∈ located text nlp tbl ∨ (located text nlp tbl = ∅ ∧ x = no_location_found).
Proof.
  rewrite extract_locations_located. case_decide as He.
  - intros ->%list_elem_of_singleton. by right.
  - intros ?%elem_of_elements. by left.
Qed.

Lemma elem_of_located text nlp tbl x :
  x ∈ located text nlp tbl ↔
  x ∈ gpe_texts (nlp text) ∨ x ∈ abbreviation_matches text tbl.
Proof. unfold located. apply elem_of_union. Qed.

(** X1: the list [extract_locations] returns is never empty and holds
    no location twice. *)
Theorem extract_locations_nonempty_distinct
    (text : string) (nlp : recogniser) (tbl : list (string * string)) :
  extract_locations text nlp tbl ≠ [] ∧ NoDup (extract_locations text nlp tbl).
Proof.
  split; [apply extract_locations_nonempty | apply NoDup_extract_locations].
Qed.

(** X2: with a table whose keys, compared up to case, each have one
    expansion, [extract_locations] returns exactly: the texts of the
    entities labelled "GPE"; the expansions of the keys that equal a
    whitespace-separated word of the text up to case; and the sentinel
    when there is neither. *)
Theorem extract_locations_exactly
    (text : string) (nlp : recogniser) (tbl : list (string * string))
    (x : string) :
  case_insensitive tbl →
  x ∈ extract_locations text nlp tbl ↔
    (∃ ent, ent ∈ nlp text ∧ label_ ent = "GPE" ∧ ent_text ent = x) ∨
    (∃ word key, word ∈ split text ∧ (key, x) ∈ tbl ∧ lower word = lower key) ∨
    (x = "no location found" ∧
     (∀ ent, ent ∈ nlp text → label_ ent ≠ "GPE") ∧
     (∀ word key val, word ∈ split text → (key, val) ∈ tbl →
        lower word ≠ lower key)).
Proof.
  intros Hci. split.
  - intros [[Hner|Habbr]%elem_of_located|[Hempty ->]]%elem_of_elements_located.
    + left. by apply elem_of_gpe_texts.
    + right. left.
      apply elem_of_abbreviation_matches in Habbr as (word & Hw & Hl).
      apply lower_keys_Some in Hl as (key & Hk & Heq). by exists word, key.
    + right. right. split; [done|]. split.
      * intros ent Hin Hl.
        assert (ent_text ent ∈ located text nlp tbl) as Hx
          by (apply elem_of_located; left; apply elem_of_gpe_texts; by exists ent).
        rewrite Hempty in Hx. by apply not_elem_of_empty in Hx.
      * intros word key val Hw Hk Heq.
        assert (val ∈ located text nlp tbl) as Hx.
        { apply elem_of_located. right. apply elem_of_abbreviation_matches.
          exists word. split; [done|]. rewrite Heq. by apply lower_keys_lookup. }
        rewrite Hempty in Hx. by apply not_elem_of_empty in Hx.
  - intros [Hner|[(word & key & Hw & Hk & Heq)|(-> & Hner & Habbr)]].
    + apply elem_of_extract_locations, elem_of_located. left.
      by apply elem_of_gpe_texts.
    + by apply (extract_locations_expands _ _ _ word key).
    + rewrite extract_locations_located, (located_empty _ _ _ Hner Habbr).
      rewrite decide_True by done. by apply list_elem_of_singleton.
Qed.

Lemma extract_locations_exactly_witness :
  "Texas" ∈ extract_locations "road trip to tx" nlp_silent abbreviation_mapping ↔
    (∃ ent, ent ∈ nlp_silent "road trip to tx" ∧ label_ ent = "GPE"
            ∧ ent_text ent = "Texas") ∨
    (∃ word key, word ∈ split "road trip to tx"
                 ∧ (key, "Texas") ∈ abbreviation_mapping
                 ∧ lower word = lower key) ∨
    ("Texas" = "no location found" ∧
     (∀ ent, ent ∈ nlp_silent "road trip to tx" → label_ ent ≠ "GPE") ∧
     (∀ word key val, word ∈ split "road trip to tx" →
        (key, val) ∈ abbreviation_mapping → lower word ≠ lower key)).
Proof.
  apply (extract_locations_exactly "road trip to tx" nlp_silent
           abbreviation_mapping "Texas").
  apply abbreviation_mapping_case_insensitive.
Defined.



(** ** More on counting and filtering *)

Section CountingMore.

Implicit Types (c : Counter.t) (x y : string) (xs : list string).

Lemma total_incr c x : total (Counter.incr c x) = S (total c).
Proof.
  unfold total. induction c as [|[k n] c IH]; [done|].
  cbn [Counter.incr]. case_decide; rewrite !fmap_cons; cbn [snd].
  - done.
  - change (sum_list (n :: (Counter.incr c x).*2))
      with (n + sum_list (Counter.incr c x).*2).
    rewrite IH. change (sum_list (n :: c.*2)) with (n + sum_list c.*2). lia.
Qed.

Lemma total_foldl c xs : total (foldl Counter.incr c xs) = total c + length xs.
Proof.
  revert c. induction xs as [|x xs IH]; intros c; simpl; [lia|].
  rewrite IH, total_incr. lia.
Qed.

Lemma total_of_list xs : total (Counter.of_list xs) = length xs.
Proof. unfold Counter.of_list. by rewrite total_foldl. Qed.

(** In a dictionary an item is a key with its value. *)
Lemma counter_elem_of c x n :
  NoDup (Counter.keys c) →
  (x, n) ∈ c ↔ x ∈ Counter.keys c ∧ Counter.get c x = n.
Proof.
  unfold Counter.keys. induction c as [|[k m] c IH]; simpl.
  - intros _. split; [by intros ?%elem_of_nil | by intros [?%elem_of_nil _]].
  - rewrite NoDup_cons. intros [Hk Hnd]. rewrite !elem_of_cons, (IH Hnd).
    destruct (decide (k = x)) as [->|Hkx].
    + split.
      * intros [[= ->]|[Hin _]]; [by split; [left|] | done].
      * intros [_ ->]. by left.
    + split.
      * intros [[= ? ?]|[Hin Hget]]; [done | by split; [right|]].
      * intros [[?|Hin] Hget]; [done | by right].
Qed.

End CountingMore.

(** X4: the counts of the frequency mapping add up to the number of
    flattened locations that pass the stop-list: no occurrence is lost and
    none is invented. *)
Theorem filter_locations_total (all_locations : list (list string)) :
  total (filter_locations all_locations)
  = length (filter (λ loc, lower loc ∉ unwanted_words) (flatten all_locations)).
Proof. unfold filter_locations. by rewrite total_of_list. Qed.

Lemma elem_of_filter_locations
    (all_locations : list (list string)) (loc : string) (n : nat) :
  (loc, n) ∈ filter_locations all_locations ↔
  0 < n ∧ (lower loc ∉ unwanted_words) ∧
  n = occurrences loc (flatten all_locations).
Proof.
  assert (NoDup (Counter.keys (filter_locations all_locations))) as Hnd
    by apply counter_keys_NoDup.
  rewrite (counter_elem_of _ _ _ Hnd), filter_locations_keys, filter_locations_get.
  split.
  - intros [[Hin Hstop] <-]. rewrite decide_True by done.
    split; [by apply occurrences_pos | done].
  - intros (Hpos & Hstop & ->). rewrite decide_True by done.
    split; [|done]. split; [by apply occurrences_pos | done].
Qed.

(** X5: the items of the frequency mapping are exactly the pairs of a
    location that passes the stop-list and occurs in some post with the
    number of its occurrences, which is at least 1; no location is a key
    twice. *)
Theorem filter_locations_items
    (all_locations : list (list string)) (loc : string) (n : nat) :
  NoDup (Counter.keys (filter_locations all_locations)) ∧
  ((loc, n) ∈ filter_locations all_locations ↔
   0 < n ∧ (lower loc ∉ unwanted_words) ∧
   n = occurrences loc (flatten all_locations)).
Proof.
  split; [apply counter_keys_NoDup | apply elem_of_filter_locations].
Qed.

(** X6: counting is additive over the posts: the count of a location in
    two batches of posts taken together is the sum of its counts in each
    batch. *)
Theorem filter_locations_app
    (batch1 batch2 : list (list string)) (loc : string) :
  Counter.get (filter_locations (batch1 ++ batch2)) loc
  = Counter.get (filter_locations batch1) loc
    + Counter.get (filter_locations batch2) loc.
Proof.
  rewrite !filter_locations_get. unfold flatten.
  rewrite concat_app, occurrences_app. by case_decide.
Qed.

(** ** More on the resolver *)

Section ResolverMore.

Context `{Geolocator G}.

Implicit Types (location : string) (cache : gmap string coords)
  (w : world G) (r : option coords).

(** After a call the entry of the place name is what the call returned,
    and the cache is the old one with at most that entry added. *)
Lemma get_coordinates_cache location cache w r cache' w' :
  get_coordinates location cache w = (r, cache', w') →
  cache' !! location = r ∧
  cache' = match r with
           | Some found => <[location := found]> cache
           | None => cache
           end ∧
  cache ⊆ cache'.
Proof.
  unfold get_coordinates. destruct (cache !! location) as [cached|] eqn:Hc.
  - intros [= <- <- <-]. split; [done|]. by rewrite insert_id.
  - intros [[-> ->]|(found & -> & ->)]%attempts_cache; [done|].
    split; [apply lookup_insert_eq|]. split; [done|]. by apply insert_subseteq.
Qed.

(** What a run of [n] attempts adds to the trace. *)
Lemma attempts_effort n location cache w :
  ∃ rest,
    trace (attempts n location cache w).2 = trace w ++ rest ∧
    (geocode_calls rest ≤ n)%nat ∧
    (slept rest ≤ 2 * geocode_calls rest)%nat ∧
    (∀ l, Geocode l ∈ rest → l = location).
Proof.
  revert w. induction n as [|n IH]; intros w.
  - exists []. simpl. rewrite app_nil_r. repeat split; [lia..|].
    by intros l ?%elem_of_nil.
  - destruct (geocode (geolocator w) location) as [geo g] eqn:Hgeo.
    assert ((geocode (geolocator w) location).1 = geo) as Hans by by rewrite Hgeo.
    destruct geo as [lat lon| | |e].
    + rewrite (attempts_located _ _ _ _ _ _ Hans). exists [Geocode location].
      simpl. repeat split; [lia..|]. by intros l [= ->]%list_elem_of_singleton.
    + rewrite (attempts_no_result _ _ _ _ Hans).
      destruct (IH (World (geocode (geolocator w) location).2
                      (trace w ++ [Geocode location])))
        as (rest & -> & Hcalls & Hslept & Hnames).
      exists (Geocode location :: rest). cbn [trace].
      rewrite <-app_assoc. simpl. repeat split; [lia..|].
      intros l [[= ->]|?]%elem_of_cons; [done | by apply Hnames].
    + rewrite (attempts_timed_out _ _ _ _ Hans).
      destruct (IH (World (geocode (geolocator w) location).2
                      (trace w ++ [Geocode location;
                                   Print ("Timeout for " +:+ location
                                          +:+ ", retrying...");
                                   Sleep 2])))
        as (rest & -> & Hcalls & Hslept & Hnames).
      exists (Geocode location
              :: Print ("Timeout for " +:+ location +:+ ", retrying...")
              :: Sleep 2 :: rest).
      cbn [trace]. rewrite <-app_assoc. simpl. repeat split; [lia..|].
      intros l [[= ->]|[?|[?|?]%elem_of_cons]%elem_of_cons]%elem_of_cons;
        [done..|by apply Hnames].
    + rewrite (attempts_failed _ _ _ _ _ Hans).
      exists [Geocode location;
              Print ("Error geocoding " +:+ location +:+ ": " +:+ e)].
      simpl. repeat split; [lia..|].
      intros l [[= ->]|[?|?%elem_of_nil]%elem_of_cons]%elem_of_cons; done.
Qed.

Lemma get_coordinates_effort location cache w :
  ∃ rest,
    trace (get_coordinates location cache w).2 = trace w ++ rest ∧
    (geocode_calls rest ≤ 3)%nat ∧
    (slept rest ≤ 2 * geocode_calls rest)%nat ∧
    (∀ l, Geocode l ∈ rest → l = location) ∧
    (cache !! location = None → (1 ≤ geocode_calls rest)%nat).
Proof.
  unfold get_coordinates. destruct (cache !! location) as [cached|] eqn:Hc.
  - exists []. simpl. rewrite app_nil_r. repeat split; [lia..| |done].
    by intros l ?%elem_of_nil.
  - destruct (attempts_effort 3 location cache w)
      as (rest & Htrace & Hcalls & Hslept & Hnames).
    exists rest. repeat split; [done..|]. intros _.
    destruct (attempts_starts_with_lookup 2 location cache w) as [rest' Hrest'].
    rewrite Htrace in Hrest'. apply app_inv_head in Hrest' as ->. simpl. lia.
Qed.

Lemma after_replicate_S (g : G) location k :
  after g (replicate (S k) location)
  = after (geocode g location).2 (replicate k location).
Proof. done. Qed.

Lemma answer_S (g : G) location k :
  answer g location (S k) = answer (geocode g location).2 location k.
Proof. done. Qed.

Lemma attempts_retry k : ∀ n location cache w latitude longitude,
  k < n →
  (∀ j, j < k → retried (answer (geolocator w) location j)) →
  answer (geolocator w) location k = Located latitude longitude →
  ∃ rest,
    attempts n location cache w
    = (Some (latitude, longitude),
       <[location := (latitude, longitude)]> cache,
       World (after (geolocator w) (replicate (S k) location))
             (trace w ++ rest)) ∧
    geocode_calls rest = S k ∧ (slept rest ≤ 2 * k)%nat.
Proof.
  induction k as [|k IH]; intros n location cache w lat lon Hk Hretry Hfound.
  - destruct n as [|n]; [lia|]. exists [Geocode location].
    by rewrite (attempts_located _ _ _ _ _ _ Hfound).
  - destruct n as [|n]; [lia|].
    pose proof (Hretry 0 ltac:(lia)) as [H0|H0]; unfold answer in H0; simpl in H0.
    + rewrite (attempts_timed_out _ _ _ _ H0).
      match goal with |- context [attempts n location cache ?w1] =>
        destruct (IH n location cache w1 lat lon) as (rest & -> & Hcalls & Hslept)
      end.
      { lia. }
      { intros j Hj. cbn [geolocator]. rewrite <-answer_S. apply Hretry. lia. }
      { cbn [geolocator]. by rewrite <-answer_S. }
      cbn [geolocator trace]. rewrite <-app_assoc.
      eexists. split; [reflexivity|]. simpl. lia.
    + rewrite (attempts_no_result _ _ _ _ H0).
      match goal with |- context [attempts n location cache ?w1] =>
        destruct (IH n location cache w1 lat lon) as (rest & -> & Hcalls & Hslept)
      end.
      { lia. }
      { intros j Hj. cbn [geolocator]. rewrite <-answer_S. apply Hretry. lia. }
      { cbn [geolocator]. by rewrite <-answer_S. }
      cbn [geolocator trace]. rewrite <-app_assoc.
      eexists. split; [reflexivity|]. simpl. lia.
Qed.

Lemma attempts_abort k : ∀ n location cache w e,
  k < n →
  (∀ j, j < k → retried (answer (geolocator w) location j)) →
  answer (geolocator w) location k = Failed e →
  ∃ rest,
    attempts n location cache w
    = (None, cache,
       World (after (geolocator w) (replicate (S k) location))
             (trace w ++ rest)) ∧
    geocode_calls rest = S k ∧ (slept rest ≤ 2 * k)%nat.
Proof.
  induction k as [|k IH]; intros n location cache w e Hk Hretry Hfail.
  - destruct n as [|n]; [lia|]. eexists.
    by rewrite (attempts_failed _ _ _ _ _ Hfail).
  - destruct n as [|n]; [lia|].
    pose proof (Hretry 0 ltac:(lia)) as [H0|H0]; unfold answer in H0; simpl in H0.
    + rewrite (attempts_timed_out _ _ _ _ H0).
      match goal with |- context [attempts n location cache ?w1] =>
        destruct (IH n location cache w1 e) as (rest & -> & Hcalls & Hslept)
      end.
      { lia. }
      { intros j Hj. cbn [geolocator]. rewrite <-answer_S. apply Hretry. lia. }
      { cbn [geolocator]. by rewrite <-answer_S. }
      cbn [geolocator trace]. rewrite <-app_assoc.
      eexists. split; [reflexivity|]. simpl. lia.
    + rewrite (attempts_no_result _ _ _ _ H0).
      match goal with |- context [attempts n location cache ?w1] =>
        destruct (IH n location cache w1 e) as (rest & -> & Hcalls & Hslept)
      end.
      { lia. }
      { intros j Hj. cbn [geolocator]. rewrite <-answer_S. apply Hretry. lia. }
      { cbn [geolocator]. by rewrite <-answer_S. }
      cbn [geolocator trace]. rewrite <-app_assoc.
      eexists. split; [reflexivity|]. simpl. lia.
Qed.

(** Coordinates that come out of the loop were an answer. *)
Lemma attempts_found n : ∀ location cache w found cache' w',
  attempts n location cache w = (Some found, cache', w') →
  ∃ k, k < n ∧ answer (geolocator w) location k = Located found.1 found.2.
Proof.
  induction n as [|n IH]; intros location cache w found cache' w'; [done|].
  destruct (geocode (geolocator w) location) as [geo g] eqn:Hgeo.
  assert ((geocode (geolocator w) location).1 = geo) as Hans by by rewrite Hgeo.
  destruct geo as [lat lon| | |e].
  - rewrite (attempts_located _ _ _ _ _ _ Hans). intros [= <- _ _].
    exists 0. split; [lia|done].
  - rewrite (attempts_no_result _ _ _ _ Hans).
    intros (k & Hk & Hfound)%IH. exists (S k). split; [lia|].
    by rewrite answer_S.
  - rewrite (attempts_timed_out _ _ _ _ Hans).
    intros (k & Hk & Hfound)%IH. exists (S k). split; [lia|].
    by rewrite answer_S.
  - by rewrite (attempts_failed _ _ _ _ _ Hans).
Qed.

End ResolverMore.

(** X7: after any call of [get_coordinates] the cache entry of the place
    name is exactly what the call returned ([None]: no entry), and every
    other entry is as before: the cache only grows, by the one resolved
    name. *)
Theorem get_coordinates_cache_entry `{Geolocator G}
    (location : string) (cache : gmap string coords) (w : world G) :
  let '(r, cache', _) := get_coordinates location cache w in
  cache' !! location = r ∧
  (∀ other, other ≠ location → cache' !! other = cache !! other) ∧
  cache ⊆ cache'.
Proof.
  destruct (get_coordinates location cache w) as [[r cache'] w'] eqn:Hcall.
  apply get_coordinates_cache in Hcall as (Hentry & Hcache & Hsub).
  split; [done|]. split; [|done].
  intros other Hne. rewrite Hcache. destruct r as [found|]; [|done].
  by rewrite lookup_insert_ne.
Qed.

Lemma get_coordinates_cache_entry_witness :
  let '(r, cache', _) :=
    get_coordinates "Texas" {["Utah" := (39.5%float, (-111.5)%float)]}
      (World flaky_texas []) in
  cache' !! "Texas" = r ∧
  (∀ other, other ≠ "Texas" →
     cache' !! other
     = ({["Utah" := (39.5%float, (-111.5)%float)]} : gmap string coords) !! other) ∧
  ({["Utah" := (39.5%float, (-111.5)%float)]} : gmap string coords) ⊆ cache'.
Proof.
  exact (get_coordinates_cache_entry "Texas"
           {["Utah" := (39.5%float, (-111.5)%float)]} (World flaky_texas [])).
Defined.

(** X8: one call of [get_coordinates] makes at most 3 lookups, all of
    them for the place name it was given, and waits at most 2 per lookup,
    so at most 6; it makes at least one lookup when the name is not in the
    cache. *)
Theorem get_coordinates_bounded `{Geolocator G}
    (location : string) (cache : gmap string coords) (w : world G) :
  ∃ rest,
    trace (get_coordinates location cache w).2 = trace w ++ rest ∧
    (geocode_calls rest ≤ 3)%nat ∧
    (slept rest ≤ 6)%nat ∧
    (∀ l, Geocode l ∈ rest → l = location) ∧
    (cache !! location = None → (1 ≤ geocode_calls rest)%nat).
Proof.
  destruct (get_coordinates_effort location cache w)
    as (rest & Htrace & Hcalls & Hslept & Hnames & Hmiss).
  exists rest. repeat split; [done..|lia|done|done].
Qed.

Lemma get_coordinates_bounded_witness :
  ∃ rest,
    trace (get_coordinates "Texas" ∅ (World flaky_texas [])).2 = [] ++ rest ∧
    (geocode_calls rest ≤ 3)%nat ∧
    (slept rest ≤ 6)%nat ∧
    (∀ l, Geocode l ∈ rest → l = "Texas") ∧
    ((∅ : gmap string coords) !! "Texas" = None → (1 ≤ geocode_calls rest)%nat).
Proof.
  exact (get_coordinates_bounded "Texas" ∅ (World flaky_texas [])).
Defined.

(** X9: [get_coordinates] never invents coordinates: what it returns
    was in the cache for that name or is the answer of the collaborator to
    one of the first three lookups of the name. *)
Theorem get_coordinates_provenance `{Geolocator G}
    (location : string) (cache cache' : gmap string coords) (w w' : world G)
    (found : coords) :
  get_coordinates location cache w = (Some found, cache', w') →
  cache !! location = Some found ∨
  ∃ k, k < 3 ∧ answer (geolocator w) location k = Located found.1 found.2.
Proof.
  unfold get_coordinates. destruct (cache !! location) as [cached|].
  - intros [= -> _ _]. by left.
  - intros ?%attempts_found. by right.
Qed.

Lemma get_coordinates_provenance_witness :
  (∅ : gmap string coords) !! "Texas" = Some (31.0%float, (-100.0)%float) ∨
  ∃ k, k < 3 ∧ answer flaky_texas "Texas" k = Located 31.0 (-100.0).
Proof.
  destruct (get_coordinates "Texas" ∅ (World flaky_texas []))
    as [[r cache'] w'] eqn:Hcall.
  assert (r = Some (31.0%float, (-100.0)%float)) as ->
    by (vm_compute in Hcall; by injection Hcall as <- _ _).
  apply (get_coordinates_provenance _ _ _ _ _ _ Hcall).
Defined.

(** X10: transient trouble is retried: when the name is not in the
    cache, the first [k] answers ([k] at most 2) are timeouts or empty
    results and the next answer is a location, [get_coordinates] returns
    that location and caches it after exactly [k + 1] lookups, having
    waited at most [2 * k]. *)
Theorem get_coordinates_retry_succeeds `{Geolocator G}
    (location : string) (cache : gmap string coords) (w : world G)
    (k : nat) (latitude longitude : float) :
  cache !! location = None →
  k < 3 →
  (∀ j, j < k → retried (answer (geolocator w) location j)) →
  answer (geolocator w) location k = Located latitude longitude →
  ∃ rest,
    get_coordinates location cache w
    = (Some (latitude, longitude),
       <[location := (latitude, longitude)]> cache,
       World (after (geolocator w) (replicate (S k) location))
             (trace w ++ rest)) ∧
    geocode_calls rest = S k ∧ (slept rest ≤ 2 * k)%nat.
Proof.
  intros Hmiss Hk Hretry Hfound. rewrite get_coordinates_miss by done.
  by apply attempts_retry.
Qed.

Lemma get_coordinates_retry_succeeds_witness :
  ∃ rest,
    get_coordinates "Texas" ∅ (World flaky_texas [])
    = (Some (31.0%float, (-100.0)%float),
       <["Texas" := (31.0%float, (-100.0)%float)]> (∅ : gmap string coords),
       World (after flaky_texas (replicate 3 "Texas")) ([] ++ rest)) ∧
    geocode_calls rest = 3 ∧ (slept rest ≤ 2 * 2)%nat.
Proof.
  apply (get_coordinates_retry_succeeds "Texas" ∅ (World flaky_texas []) 2).
  - reflexivity.
  - lia.
  - intros j Hj. destruct j as [|[|j]]; [by left..|lia].
  - reflexivity.
Defined.

(** X11: an error ends the retries: when the name is not in the cache,
    the first [k] answers ([k] at most 2) are timeouts or empty results
    and the next one is an error that is not a timeout, [get_coordinates]
    returns [None] after exactly [k + 1] lookups and leaves the cache
    unchanged. *)
Theorem get_coordinates_retry_aborts `{Geolocator G}
    (location : string) (cache : gmap string coords) (w : world G)
    (k : nat) (e : string) :
  cache !! location = None →
  k < 3 →
  (∀ j, j < k → retried (answer (geolocator w) location j)) →
  answer (geolocator w) location k = Failed e →
  ∃ rest,
    get_coordinates location cache w
    = (None, cache,
       World (after (geolocator w) (replicate (S k) location))
             (trace w ++ rest)) ∧
    geocode_calls rest = S k ∧ (slept rest ≤ 2 * k)%nat.
Proof.
  intros Hmiss Hk Hretry Hfail. rewrite get_coordinates_miss by done.
  by apply (attempts_abort k _ _ _ _ e).
Qed.

Lemma get_coordinates_retry_aborts_witness :
  ∃ rest,
    get_coordinates "Texas" ∅ (World timeout_then_error [])
    = (None, ∅,
       World (after timeout_then_error (replicate 2 "Texas")) ([] ++ rest)) ∧
    geocode_calls rest = 2 ∧ (slept rest ≤ 2 * 1)%nat.
Proof.
  apply (get_coordinates_retry_aborts "Texas" ∅ (World timeout_then_error [])
           1 "quota exceeded").
  - reflexivity.
  - lia.
  - intros j Hj. destruct j as [|j]; [by left|lia].
  - reflexivity.
Defined.

(** ** More on the aggregator *)

Section AggregatorMore.

Context `{Geolocator G}.

Implicit Types (cache : gmap string coords) (w : world G)
  (items : list (string * nat)) (acc : list (float * float * nat)).

(** One round of the loop. *)
Lemma aggregate_loop_cons location count items cache acc w :
  aggregate_loop ((location, count) :: items) cache acc w
  = let '(found, cache', w') := get_coordinates location cache w in
    aggregate_loop items cache'
      match found with
      | Some (latitude, longitude) => acc ++ [(latitude, longitude, count)]
      | None => acc
      end
      (World (geolocator w') (trace w' ++ [Sleep 2])).
Proof.
  simpl. run. by destruct (get_coordinates location cache w) as [[found cache'] w'].
Qed.


Lemma aggregates_weights cache w items points w'' :
  aggregates cache w items points w'' → points.*2 `sublist_of` items.*2.
Proof.
  induction 1; simpl.
  - done.
  - by apply sublist_skip.
  - by apply sublist_cons.
Qed.

Lemma answers_by_now f (g : G) location :
  answers_by f g → (geocode g location).1 = f location.
Proof. intros Hg. apply (Hg []). Qed.

Lemma answers_by_next f (g : G) location :
  answers_by f g → answers_by f (geocode g location).2.
Proof. intros Hg earlier l. apply (Hg (location :: earlier)). Qed.

Lemma attempts_answers_by f n : ∀ location cache w,
  answers_by f (geolocator w) →
  answers_by f (geolocator (attempts n location cache w).2) ∧
  (attempts n location cache w).1.1
  = match n with 0 => None | S _ => resolved_by f location end.
Proof.
  induction n as [|n IH]; intros location cache w Hg; [done|].
  pose proof (answers_by_now _ _ location Hg) as Hans.
  pose proof (answers_by_next _ _ location Hg) as Hg1.
  unfold resolved_by. destruct (f location) as [lat lon| | |e] eqn:Hf.
  - by rewrite (attempts_located _ _ _ _ _ _ Hans).
  - rewrite (attempts_no_result _ _ _ _ Hans).
    match goal with |- context [attempts n location cache ?w1] =>
      destruct (IH location cache w1 Hg1) as [Hg' Hr]
    end.
    split; [done|]. rewrite Hr. destruct n; [done|].
    unfold resolved_by. by rewrite Hf.
  - rewrite (attempts_timed_out _ _ _ _ Hans).
    match goal with |- context [attempts n location cache ?w1] =>
      destruct (IH location cache w1 Hg1) as [Hg' Hr]
    end.
    split; [done|]. rewrite Hr. destruct n; [done|].
    unfold resolved_by. by rewrite Hf.
  - by rewrite (attempts_failed _ _ _ _ _ Hans).
Qed.

Lemma get_coordinates_answers_by f location cache w r cache' w' :
  answers_by f (geolocator w) → cache_of f cache →
  get_coordinates location cache w = (r, cache', w') →
  r = resolved_by f location ∧ answers_by f (geolocator w') ∧ cache_of f cache'.
Proof.
  intros Hg Hcache Hcall.
  assert (r = resolved_by f location ∧ answers_by f (geolocator w')) as [-> Hg'].
  { unfold get_coordinates in Hcall.
    destruct (cache !! location) as [cached|] eqn:Hc.
    - injection Hcall as <- <- <-. split; [|done].
      unfold resolved_by. rewrite (Hcache _ _ Hc). by destruct cached.
    - destruct (attempts_answers_by f 3 location cache w Hg) as [Hg' Hr].
      rewrite Hcall in Hg', Hr. by split. }
  split; [done|]. split; [done|].
  apply get_coordinates_cache in Hcall as (_ & -> & _).
  unfold resolved_by. destruct (f location) as [lat lon| | |e] eqn:Hf; [|done..].
  intros l found. destruct (decide (l = location)) as [->|Hne].
  - rewrite lookup_insert_eq. by intros [= <-].
  - rewrite lookup_insert_ne by done. apply Hcache.
Qed.

Lemma aggregate_loop_answers_by f items : ∀ cache acc w,
  answers_by f (geolocator w) → cache_of f cache →
  (aggregate_loop items cache acc w).1 = acc ++ omap (point_of f) items.
Proof.
  induction items as [|[location count] items IH]; intros cache acc w Hg Hcache.
  - simpl. by rewrite app_nil_r.
  - rewrite aggregate_loop_cons.
    destruct (get_coordinates location cache w) as [[found cache'] w'] eqn:Hcall.
    destruct (get_coordinates_answers_by _ _ _ _ _ _ _ Hg Hcache Hcall)
      as (-> & Hg' & Hcache').
    rewrite IH by done. simpl. unfold point_of, resolved_by. simpl.
    destruct (f location) as [lat lon| | |e]; [|done..].
    by rewrite <-app_assoc.
Qed.

End AggregatorMore.

Lemma mock_answers_by (f : string → geo_outcome) (n : nat) :
  answers_by f (Mock (λ _ location, f location) n).
Proof.
  intros earlier. revert n.
  induction earlier as [|l earlier IH]; intros n location; [done|].
  apply (IH (S n)).
Qed.

Lemma filter_none {A} (P : A → Prop) `{!∀ x, Decision (P x)} (l : list A) :
  (∀ x, x ∈ l → ¬ P x) → filter P l = [].
Proof.
  induction l as [|x l IH]; intros Hall; [done|].
  rewrite filter_cons_False by (apply Hall; left).
  apply IH. intros y Hy. apply Hall. by right.
Qed.




(** X14: with a collaborator whose answer depends on the place name
    only, [get_location_coordinates] returns, in the order of the mapping,
    the point [(latitude, longitude, count)] of every name the collaborator
    locates, and nothing for the other names. *)
Theorem get_location_coordinates_by_name `{Geolocator G}
    (f : string → geo_outcome) (location_counts : Counter.t) (w : world G) :
  answers_by f (geolocator w) →
  (get_location_coordinates location_counts w).1
  = omap (point_of f) location_counts.
Proof.
  intros Hg. unfold get_location_coordinates.
  by rewrite (aggregate_loop_answers_by f).
Qed.

Lemma get_location_coordinates_by_name_witness :
  (get_location_coordinates [("Texas", 5); ("Utopia", 2); ("California", 3)]
     (World atlas_service [])).1
  = [(31.0%float, (-100.0)%float, 5); (36.5%float, (-119.5)%float, 3)].
Proof.
  apply (get_location_coordinates_by_name atlas).
  apply mock_answers_by.
Defined.

(** X15: the weights of the points [get_location_coordinates] returns
    are counts of the frequency mapping, in the order of the mapping, each
    pair used at most once. *)
Theorem get_location_coordinates_weights `{Geolocator G}
    (location_counts : Counter.t) (w : world G) :
  (get_location_coordinates location_counts w).1.*2
  `sublist_of` location_counts.*2.
Proof.
  destruct (aggregates_total location_counts ∅ w) as (points & w'' & Hagg).
  unfold get_location_coordinates.
  rewrite (aggregate_loop_aggregates _ _ _ _ _ Hagg). simpl.
  by apply aggregates_weights in Hagg.
Qed.

(** X16: when every extracted location is stop-listed, in particular
    when no post has a location, the frequency mapping is empty and
    [get_location_coordinates] returns no point without a lookup or a
    wait. *)
Theorem nothing_located_nothing_looked_up `{Geolocator G}
    (all_locations : list (list string)) (w : world G) :
  (∀ loc, loc ∈ flatten all_locations → lower loc ∈ unwanted_words) →
  filter_locations all_locations = [] ∧
  get_location_coordinates (filter_locations all_locations) w = ([], w).
Proof.
  intros Hall.
  assert (filter_locations all_locations = []) as ->; [|done].
  unfold filter_locations. rewrite filter_none; [done|].
  intros loc Hin Hstop. by apply Hstop, Hall.
Qed.

Lemma nothing_located_nothing_looked_up_witness :
  filter_locations [["no location found"]; ["Meth"]; ["no location found"]] = [] ∧
  get_location_coordinates
    (filter_locations [["no location found"]; ["Meth"]; ["no location found"]])
    (World atlas_service [])
  = ([], World atlas_service []).
Proof.
  apply (nothing_located_nothing_looked_up
           [["no location found"]; ["Meth"]; ["no location found"]]
           (World atlas_service [])).
  intros loc Hin. simpl in Hin.
  repeat (apply elem_of_cons in Hin as [->|Hin]); [by vm_compute..|].
  by apply elem_of_nil in Hin.
Defined.

(** ** More on the posts *)

Section PostsMore.

Variable nlp : recogniser.


Lemma process_posts_loop_again posts posts' added :
  Forall3 (located_post nlp) posts posts' added →
  ∀ all_locations,
    process_posts_loop nlp posts' all_locations
    = Some (posts', all_locations ++ added).
Proof.
  induction 1 as [|p p' locations posts posts' added (text & Hc & -> & ->) _ IH];
    intros acc; simpl.
  - by rewrite app_nil_r.
  - rewrite lookup_insert_ne by done. rewrite Hc.
    rewrite IH, insert_insert_eq. by rewrite <-app_assoc.
Qed.

Lemma occurrences_concat_NoDup x (lists : list (list string)) :
  Forall NoDup lists → (occurrences x (concat lists) ≤ length lists)%nat.
Proof.
  induction 1 as [|l lists Hl _ IH]; simpl; [done|].
  rewrite occurrences_app.
  assert (occurrences x l ≤ 1)%nat; [|lia].
  destruct (decide (x ∈ l)) as [Hin|Hnin].
  - by rewrite occurrences_NoDup.
  - rewrite occurrences_not_elem by done. lia.
Qed.

Lemma located_post_extracted posts posts' added locations :
  Forall3 (located_post nlp) posts posts' added →
  locations ∈ added →
  ∃ p text,
    p ∈ posts ∧ p !! "content" = Some (JStr text) ∧
    locations = extract_locations text nlp abbreviation_mapping.
Proof.
  induction 1 as [|p p' l posts posts' added (text & Hc & -> & _) _ IH].
  - by intros ?%elem_of_nil.
  - intros [->|Hin]%elem_of_cons.
    + exists p, text. split; [left|done].
    + destruct (IH Hin) as (q & text' & Hq & Hc' & Hl).
      exists q, text'. split; [by right|done].
Qed.

End PostsMore.



(** X18: [process_posts] is idempotent: run again on the posts it
    returned, it returns the same posts and the same location lists. *)
Theorem process_posts_idempotent (nlp : recogniser)
    (posts posts' : list post) (all_locations : list (list string)) :
  process_posts nlp posts = Some (posts', all_locations) →
  process_posts nlp posts' = Some (posts', all_locations).
Proof.
  intros (added & -> & Hall)%process_posts_loop_Some.
  apply (process_posts_loop_again nlp _ _ _ Hall []).
Qed.

Lemma process_posts_idempotent_witness :
  process_posts nlp_silent
    [<["location" := JList [JStr "Los Angeles"]]> sample_post]
  = Some ([<["location" := JList [JStr "Los Angeles"]]> sample_post],
          [["Los Angeles"]]).
Proof.
  apply (process_posts_idempotent nlp_silent [sample_post]).
  by vm_compute.
Defined.

(** X19: every location of the frequency mapping built from the
    processed posts was found in the text of some post: it is the text of
    an entity labelled "GPE" or the expansion of an abbreviation that is a
    word of that text; the sentinel is no such location. *)
Theorem counted_locations_come_from_posts (nlp : recogniser)
    (posts posts' : list post) (all_locations : list (list string))
    (loc : string) :
  process_posts nlp posts = Some (posts', all_locations) →
  loc ∈ Counter.keys (filter_locations all_locations) →
  ∃ p text,
    p ∈ posts ∧ p !! "content" = Some (JStr text) ∧
    ((∃ ent, ent ∈ nlp text ∧ label_ ent = "GPE" ∧ ent_text ent = loc) ∨
     (∃ word key, word ∈ split text ∧ (key, loc) ∈ abbreviation_mapping ∧
                  lower word = lower key)).
Proof.
  intros (added & -> & Hall)%process_posts_loop_Some
         [Hin Hstop]%filter_locations_keys.
  simpl in Hin. unfold flatten in Hin.
  apply list_elem_of_In, in_concat in Hin as (locations & Hl & Hloc).
  apply list_elem_of_In in Hl, Hloc.
  destruct (located_post_extracted nlp _ _ _ _ Hall Hl)
    as (p & text & Hp & Hc & ->).
  exists p, text. split; [done|]. split; [done|].
  apply elem_of_elements_located in Hloc as [Hloc|[_ ->]].
  - apply elem_of_located in Hloc as [Hner|Habbr].
    + left. by apply elem_of_gpe_texts.
    + right. apply elem_of_abbreviation_matches in Habbr as (word & Hw & Hk).
      apply lower_keys_Some in Hk as (key & Hk & Heq). by exists word, key.
  - destruct Hstop. by vm_compute.
Qed.

Lemma counted_locations_come_from_posts_witness :
  ∃ p text,
    p ∈ [sample_post] ∧ p !! "content" = Some (JStr text) ∧
    ((∃ ent, ent ∈ nlp_silent text ∧ label_ ent = "GPE"
             ∧ ent_text ent = "Los Angeles") ∨
     (∃ word key, word ∈ split text ∧ (key, "Los Angeles") ∈ abbreviation_mapping ∧
                  lower word = lower key)).
Proof.
  apply (counted_locations_come_from_posts nlp_silent [sample_post]
           [<["location" := JList [JStr "Los Angeles"]]> sample_post]
           [["Los Angeles"]]).
  - by vm_compute.
  - vm_compute. left.
Defined.

(** X20: a location is counted at most once per post: its count in the
    frequency mapping built from the processed posts is at most the number
    of posts. *)
Theorem count_at_most_posts (nlp : recogniser)
    (posts posts' : list post) (all_locations : list (list string))
    (loc : string) :
  process_posts nlp posts = Some (posts', all_locations) →
  (Counter.get (filter_locations all_locations) loc ≤ length posts)%nat.
Proof.
  intros (added & -> & Hall)%process_posts_loop_Some. simpl.
  rewrite filter_locations_get. case_decide; [|lia].
  rewrite (Forall3_length_lr _ _ _ _ Hall). unfold flatten.
  apply occurrences_concat_NoDup, Forall_forall. intros locations Hl.
  destruct (located_post_extracted nlp _ _ _ _ Hall Hl) as (_ & text & _ & _ & ->).
  apply NoDup_extract_locations.
Qed.

Lemma count_at_most_posts_witness :
  (Counter.get (filter_locations [["Los Angeles"]]) "Los Angeles" ≤ 1)%nat.
Proof.
  apply (count_at_most_posts nlp_silent [sample_post]
           [<["location" := JList [JStr "Los Angeles"]]> sample_post]
           [["Los Angeles"]] "Los Angeles").
  by vm_compute.
Defined.

(** ** The top locations *)

Section TopLocations.

Implicit Types (item row : string * nat) (c rows : list (string * nat)).

Lemma insert_by_count_perm item rows :
  insert_by_count item rows ≡ₚ item :: rows.
Proof.
  induction rows as [|row rows IH]; simpl; [done|].
  case_decide; [done|]. rewrite IH. apply Permutation_swap.
Qed.

Lemma sorted_by_count_perm c : sorted_by_count c ≡ₚ c.
Proof.
  unfold sorted_by_count. induction c as [|item c IH]; simpl; [done|].
  by rewrite insert_by_count_perm, IH.
Qed.

Lemma insert_by_count_descending item rows :
  descending rows → descending (insert_by_count item rows).
Proof.
  induction rows as [|row rows IH]; simpl.
  - intros _. split; [by apply Forall_nil|done].
  - intros [Hrow Hrows]. case_decide as Hle; simpl.
    + split; [|done]. apply Forall_cons. split; [done|].
      eapply Forall_impl; [exact Hrow|]. simpl. intros later. lia.
    + split; [|by apply IH]. rewrite insert_by_count_perm.
      apply Forall_cons. split; [lia|done].
Qed.

Lemma sorted_by_count_descending c : descending (sorted_by_count c).
Proof.
  unfold sorted_by_count. induction c as [|item c IH]; simpl; [done|].
  by apply insert_by_count_descending.
Qed.

Lemma descending_app rows1 rows2 :
  descending (rows1 ++ rows2) →
  descending rows1 ∧
  ∀ row later, row ∈ rows1 → later ∈ rows2 → (later.2 ≤ row.2)%nat.
Proof.
  induction rows1 as [|row1 rows1 IH]; simpl.
  - intros _. split; [done|]. by intros row later ?%elem_of_nil.
  - intros [[Hin1 Hin2]%Forall_app Hrest]. destruct (IH Hrest) as [Hd Hcross].
    split; [done|]. intros row later [->|Hrow]%elem_of_cons Hlater.
    + by apply (proj1 (Forall_forall _ _) Hin2).
    + by apply Hcross.
Qed.

(** Equal counts keep the order they have in the counter. *)
Lemma filter_insert_by_count (m : nat) item rows :
  filter (λ it, it.2 = m) (insert_by_count item rows)
  = filter (λ it, it.2 = m) (item :: rows).
Proof.
  induction rows as [|row rows IH]; simpl; [done|].
  case_decide as Hle; [done|].
  rewrite (filter_cons _ row), IH, !(filter_cons _ item), (filter_cons _ row).
  repeat case_decide; try done; lia.
Qed.

Lemma filter_sorted_by_count (m : nat) c :
  filter (λ it, it.2 = m) (sorted_by_count c) = filter (λ it, it.2 = m) c.
Proof.
  unfold sorted_by_count. induction c as [|item c IH]; simpl; [done|].
  by rewrite filter_insert_by_count, !filter_cons, IH.
Qed.

Lemma most_common_spec (n : nat) c :
  length (most_common n c) = n `min` length c ∧
  descending (most_common n c) ∧
  (∀ row, row ∈ most_common n c → row ∈ c) ∧
  (∀ item row, item ∈ c → item ∉ most_common n c → row ∈ most_common n c →
     (item.2 ≤ row.2)%nat) ∧
  (NoDup c.*1 → NoDup (most_common n c).*1).
Proof.
  unfold most_common.
  pose proof (sorted_by_count_perm c) as Hperm.
  pose proof (sorted_by_count_descending c) as Hdesc.
  rewrite <-(take_drop n (sorted_by_count c)) in Hdesc.
  apply descending_app in Hdesc as [Htop Hcross].
  split; [by rewrite length_take, Hperm|]. split; [done|].
  split; [|split].
  - intros row Hrow. rewrite <-Hperm, <-(take_drop n (sorted_by_count c)).
    apply elem_of_app. by left.
  - intros item row Hitem Hout Hrow. apply Hcross; [done|].
    rewrite <-Hperm, <-(take_drop n (sorted_by_count c)) in Hitem.
    by apply elem_of_app in Hitem as [?|?].
  - intros Hnd. rewrite <-Hperm, <-(take_drop n (sorted_by_count c)) in Hnd.
    rewrite fmap_app in Hnd. by apply NoDup_app in Hnd as [? _].
Qed.

End TopLocations.

(** X21: [save_top_locations] keeps at most 5 rows, exactly 5 when the
    counter has that many keys; every row is an item of the counter, the
    rows are in order of decreasing count, no item left out has a larger
    count than a row, and no location is in two rows. *)
Theorem save_top_locations_rows {G} (location_counts : Counter.t)
    (file_path : string) (w : world G) :
  let rows := (save_top_locations location_counts file_path w).1 in
  length rows = 5 `min` length location_counts ∧
  descending rows ∧
  (∀ row, row ∈ rows → row ∈ location_counts) ∧
  (∀ item row, item ∈ location_counts → item ∉ rows → row ∈ rows →
     (item.2 ≤ row.2)%nat) ∧
  (NoDup (Counter.keys location_counts) → NoDup rows.*1).
Proof. apply (most_common_spec 5). Qed.

Lemma save_top_locations_rows_witness :
  NoDup (save_top_locations
           [("Ohio", 1); ("Texas", 4); ("Utah", 1); ("Iowa", 2); ("Maine", 7);
            ("Idaho", 1); ("Oregon", 3)]
           "top_5_locations.csv" (World atlas_service [])).1.*1.
Proof.
  apply (save_top_locations_rows
           [("Ohio", 1); ("Texas", 4); ("Utah", 1); ("Iowa", 2); ("Maine", 7);
            ("Idaho", 1); ("Oregon", 3)]
           "top_5_locations.csv" (World atlas_service [])).
  apply (bool_decide_unpack _). by vm_compute.
Defined.

(** X22: among locations with equal counts [save_top_locations] keeps
    the order of the counter, that is the order of first mention: the rows
    with a given count are the first of the counter's items with that
    count. *)
Theorem save_top_locations_ties {G} (location_counts : Counter.t)
    (file_path : string) (w : world G) (m : nat) :
  filter (λ it, it.2 = m) (save_top_locations location_counts file_path w).1
  `prefix_of` filter (λ it, it.2 = m) location_counts.
Proof.
  change (save_top_locations location_counts file_path w).1
    with (take 5 (sorted_by_count location_counts)).
  unfold Counter.t in *.
  rewrite <-(filter_sorted_by_count m location_counts).
  rewrite <-(take_drop 5 (sorted_by_count location_counts)) at 2.
  rewrite filter_app. by eexists.
Qed.

(** The top five of a counter with ties. *)
Example save_top_locations_run :
  (save_top_locations
     [("Ohio", 1); ("Texas", 4); ("Utah", 1); ("Iowa", 2); ("Maine", 7);
      ("Idaho", 1); ("Oregon", 3)]
     "top_5_locations.csv" (World atlas_service [])).1
  = [("Maine", 7); ("Texas", 4); ("Oregon", 3); ("Iowa", 2); ("Ohio", 1)].
Proof. reflexivity. Qed.

(** X23: the rows [save_top_locations] keeps of the frequency mapping of
    [filter_locations] are locations that pass the stop-list, each with
    the number of its occurrences in the posts, at least 1; saving them
    asks the collaborator nothing. *)
Theorem save_top_locations_filtered {G}
    (all_locations : list (list string)) (file_path : string) (w : world G) :
  let '(rows, w') :=
    save_top_locations (filter_locations all_locations) file_path w in
  (∀ loc n, (loc, n) ∈ rows →
     0 < n ∧ (lower loc ∉ unwanted_words) ∧
     n = occurrences loc (flatten all_locations)) ∧
  geolocator w' = geolocator w ∧
  trace w' = trace w ++ [Print ("Top 5 Locations saved to " +:+ file_path)].
Proof.
  change (save_top_locations (filter_locations all_locations) file_path w)
    with (most_common 5 (filter_locations all_locations),
          World (geolocator w)
            (trace w ++ [Print ("Top 5 Locations saved to " +:+ file_path)])).
  split; [|done]. intros loc n Hrow.
  apply elem_of_filter_locations.
  by apply (most_common_spec 5 (filter_locations all_locations)).
Qed.

Lemma save_top_locations_filtered_witness :
  let '(rows, w') :=
    save_top_locations
      (filter_locations [["Texas"; "Meth"]; ["Texas"]; ["no location found"]])
      "top_5_locations.csv" (World atlas_service []) in
  (∀ loc n, (loc, n) ∈ rows →
     0 < n ∧ (lower loc ∉ unwanted_words) ∧
     n = occurrences loc
           (flatten [["Texas"; "Meth"]; ["Texas"]; ["no location found"]])) ∧
  geolocator w' = atlas_service ∧
  trace w' = [] ++ [Print ("Top 5 Locations saved to " +:+ "top_5_locations.csv")].
Proof.
  exact (save_top_locations_filtered
           [["Texas"; "Meth"]; ["Texas"]; ["no location found"]]
           "top_5_locations.csv" (World atlas_service [])).
Defined.
